(** * Live voice session of Gemini-Ultimate-Lab: PCM codec, playback
      scheduler and session lifecycle

    Shallow embedding of [components/Labs/LiveLab.tsx] and of the codec
    helpers of [services/gemini.ts] ([encode], [decode],
    [decodeAudioData]).

    Conventions.
    - A [Uint8Array] is a [list Z] whose elements lie in [0, 256); an
      [Int16Array] is a [list Z] whose elements lie in [-32768, 32768).
    - Audio samples and times on the audio clock are rationals.  Every
      finite float is a rational, and the arithmetic the codec performs
      (a product with 32768, a truncation, a quotient by 32768) is exact
      on the values it meets, so [Q] describes it without rounding.
    - Base64 text is a [list ascii]; transcript lines are [string]s. *)

From Stdlib Require Import ZArith QArith Qabs Qminmax Lia Lqa List Ascii String Bool.
From stdpp Require Import base list.
Import ListNotations.

Local Open Scope Z_scope.

(** ** Platform: [btoa] and [atob] *)

Module Base64.

Definition alphabet : list ascii :=
  list_ascii_of_string
    "ABCDEFGHIJKLMNOPQRSTUVWXYZabcdefghijklmnopqrstuvwxyz0123456789+/".

Definition pad : ascii := "="%char.

Definition is_sextet (v : Z) : Prop := 0 <= v < 64.

(** The character of a sextet. *)
Definition char_of (v : Z) : ascii := nth (Z.to_nat v) alphabet pad.

Fixpoint index_of (c : ascii) (l : list ascii) (i : Z) : option Z :=
  match l with
  | [] => None
  | x :: r => if Ascii.eqb x c then Some i else index_of c r (i + 1)
  end.

(** The sextet of a character, when it is in the alphabet. *)
Definition value_of (c : ascii) : option Z := index_of c alphabet 0.

(** The sextets of a byte string, three bytes to four sextets; a final
    group of one or two bytes gives two or three. *)
Fixpoint sextets (bs : list Z) : list Z :=
  match bs with
  | [] => []
  | [a] => [a / 4; a mod 4 * 16]
  | [a; b] => [a / 4; a mod 4 * 16 + b / 16; b mod 16 * 4]
  | a :: b :: c :: rest =>
      a / 4 :: a mod 4 * 16 + b / 16 :: b mod 16 * 4 + c / 64 :: c mod 64
        :: sextets rest
  end.

Definition padding (n : nat) : list ascii :=
  match (n mod 3)%nat with
  | 1%nat => [pad; pad]
  | 2%nat => [pad]
  | _ => []
  end.

(** [btoa] on a binary string given by its character codes. *)
Definition btoa (bs : list Z) : list ascii :=
  List.map char_of (sextets bs) ++ padding (length bs).

Definition is_whitespace (c : ascii) : bool :=
  match nat_of_ascii c with
  | 9%nat | 10%nat | 12%nat | 13%nat | 32%nat => true
  | _ => false
  end.

(** Removes one or two trailing padding characters. *)
Definition strip_padding (s : list ascii) : list ascii :=
  match rev s with
  | p :: q :: r =>
      if Ascii.eqb p pad
      then if Ascii.eqb q pad then rev r else rev (q :: r)
      else s
  | _ => s
  end.

Fixpoint values (s : list ascii) : option (list Z) :=
  match s with
  | [] => Some []
  | c :: r =>
      match value_of c, values r with
      | Some v, Some vs => Some (v :: vs)
      | _, _ => None
      end
  end.

(** Four sextets to three bytes; the bits left over by a final group of
    two or three sextets are discarded. *)
Fixpoint bytes_of (vs : list Z) : list Z :=
  match vs with
  | a :: b :: c :: d :: rest =>
      (a * 4 + b / 16) :: (b mod 16 * 16 + c / 4) :: (c mod 4 * 64 + d)
        :: bytes_of rest
  | [a; b; c] => [a * 4 + b / 16; b mod 16 * 16 + c / 4]
  | [a; b] => [a * 4 + b / 16]
  | _ => []
  end.

(** [atob]: the forgiving base64 decoding of the HTML standard.  [None]
    stands for the [InvalidCharacterError] it throws. *)
Definition atob (s : list ascii) : option (list Z) :=
  let s1 := List.filter (fun c => negb (is_whitespace c)) s in
  let s2 := if (length s1 mod 4 =? 0)%nat then strip_padding s1 else s1 in
  if (length s2 mod 4 =? 1)%nat then None
  else match values s2 with
       | Some vs => Some (bytes_of vs)
       | None => None
       end.

End Base64.

(** ** services/gemini.ts: [encode], [decode], [decodeAudioData] *)

Definition is_byte (b : Z) : Prop := 0 <= b < 256.

Definition is_int16 (v : Z) : Prop := -32768 <= v < 32768.

(** [encode(bytes: Uint8Array): string].  The loop builds the binary
    string whose i-th character code is [bytes[i]]; [btoa] encodes it. *)
Definition encode (bytes : list Z) : list ascii := Base64.btoa bytes.

(** [decode(base64: string): Uint8Array].  [atob] may throw. *)
Definition decode (base64 : list ascii) : option (list Z) := Base64.atob base64.

(** Conversion of a number to a 16-bit signed integer, as a store into an
    [Int16Array] performs it: truncation towards zero, then wrap-around
    modulo 2^16. *)
Definition trunc (x : Q) : Z := Z.quot (Qnum x) (Z.pos (Qden x)).

Definition wrap16 (n : Z) : Z := (n + 32768) mod 65536 - 32768.

Definition ToInt16 (x : Q) : Z := wrap16 (trunc x).

(** [new Uint8Array(int16.buffer)]: two bytes per element, low byte
    first. *)
Fixpoint int16_bytes (l : list Z) : list Z :=
  match l with
  | [] => []
  | v :: r => (v mod 65536) mod 256 :: (v mod 65536) / 256 :: int16_bytes r
  end.

(** [new Int16Array(data.buffer)]: a [RangeError] when the byte length is
    odd. *)
Fixpoint bytes_int16 (bs : list Z) : option (list Z) :=
  match bs with
  | [] => Some []
  | [_] => None
  | lo :: hi :: r =>
      match bytes_int16 r with
      | Some l => Some (wrap16 (lo + 256 * hi) :: l)
      | None => None
      end
  end.

Record AudioBuffer := mkAudioBuffer {
  numberOfChannels : nat;
  frames : nat;                      (* AudioBuffer.length *)
  sampleRate : Z;
  channels : list (list Q)           (* getChannelData(c) *)
}.

(** [AudioBuffer.duration]. *)
Definition duration (b : AudioBuffer) : Q :=
  Qmake (Z.of_nat (frames b)) (Z.to_pos (sampleRate b)).

(** What [ctx.createBuffer(numberOfChannels, length, sampleRate)] accepts;
    otherwise it throws [NotSupportedError].  There must be at least one
    channel and one frame, and the browser bounds the channel count and
    the rate: at most 32 channels, and a rate from 3000 to 768000 Hz. *)
Definition createBuffer_accepts (numChannels frameCount : nat) (rate : Z)
  : bool :=
  (1 <=? numChannels)%nat && (numChannels <=? 32)%nat
  && (1 <=? frameCount)%nat
  && (3000 <=? rate) && (rate <=? 768000).

(** [decodeAudioData(data, ctx, sampleRate, numChannels)].  The frame
    count [ctx.createBuffer] receives is converted to an integer by
    truncation. *)
Definition decodeAudioData (data : list Z) (rate : Z) (numChannels : nat)
  : option AudioBuffer :=
  match bytes_int16 data with
  | None => None
  | Some dataInt16 =>
      let frameCount := (length dataInt16 / numChannels)%nat in
      if negb (createBuffer_accepts numChannels frameCount rate) then None
      else
        Some (mkAudioBuffer numChannels frameCount rate
                (List.map
                   (fun channel =>
                      List.map
                        (fun i =>
                           Qmake (nth (i * numChannels + channel) dataInt16 0)
                                 32768)
                        (seq 0 frameCount))
                   (seq 0 numChannels)))
  end.

(** ** The capture side of LiveLab.tsx *)

(** The body of [onaudioprocess] up to [pcmBlob.data]: each sample times
    32768 stored into an [Int16Array], the bytes of that array encoded. *)
Definition encodeFrame (inputData : list Q) : list ascii :=
  encode (int16_bytes (List.map (fun x => ToInt16 (x * 32768)) inputData)).

(** The decoding the message handler applies to an inline audio payload:
    [decodeAudioData(decode(base64Audio), ctx, 24000, 1)]. *)
Definition decodeToAudioBuffer (base64Audio : list ascii) : option AudioBuffer :=
  match decode base64Audio with
  | Some data => decodeAudioData data 24000 1
  | None => None
  end.

(** ** LiveLab.tsx: the component's state *)

(** Calls the component makes on the browser and on the Live API, in the
    order it makes them.  A source node is named by its creation rank, a
    session handle by a number the transport chooses. *)
Inductive Effect :=
| GetUserMedia                                   (* navigator.mediaDevices.getUserMedia *)
| Connect                                        (* ai.live.connect *)
| Close (session : nat)                          (* session.close() *)
| SendRealtimeInput (session : nat) (data : list ascii)
| Start (source : nat) (when : Q) (span : Q)     (* source.start(when), buffer duration *)
| Stop (source : nat).                           (* source.stop() *)

Record State := mkState {
  (* useState *)
  isActive : bool;
  transcription : list string;
  isConnecting : bool;
  authError : bool;
  (* useRef *)
  sessionRef : option nat;
  nextStartTimeRef : Q;
  sourcesRef : list nat;        (* a Set: insertion order, no duplicates *)
  isStoppingRef : bool;
  (* outside the component *)
  created : nat;                (* source nodes created so far *)
  streams : nat;                (* microphone streams obtained and still live *)
  effects : list Effect
}.

Definition initial : State :=
  mkState false [] false false None 0%Q [] false 0 0 [].

Definition set_isActive (b : bool) (st : State) : State :=
  mkState b (transcription st) (isConnecting st) (authError st) (sessionRef st)
    (nextStartTimeRef st) (sourcesRef st) (isStoppingRef st) (created st)
    (streams st) (effects st).

Definition set_transcription (l : list string) (st : State) : State :=
  mkState (isActive st) l (isConnecting st) (authError st) (sessionRef st)
    (nextStartTimeRef st) (sourcesRef st) (isStoppingRef st) (created st)
    (streams st) (effects st).

Definition set_isConnecting (b : bool) (st : State) : State :=
  mkState (isActive st) (transcription st) b (authError st) (sessionRef st)
    (nextStartTimeRef st) (sourcesRef st) (isStoppingRef st) (created st)
    (streams st) (effects st).

Definition set_authError (b : bool) (st : State) : State :=
  mkState (isActive st) (transcription st) (isConnecting st) b (sessionRef st)
    (nextStartTimeRef st) (sourcesRef st) (isStoppingRef st) (created st)
    (streams st) (effects st).

Definition set_sessionRef (s : option nat) (st : State) : State :=
  mkState (isActive st) (transcription st) (isConnecting st) (authError st) s
    (nextStartTimeRef st) (sourcesRef st) (isStoppingRef st) (created st)
    (streams st) (effects st).

Definition set_nextStartTimeRef (t : Q) (st : State) : State :=
  mkState (isActive st) (transcription st) (isConnecting st) (authError st)
    (sessionRef st) t (sourcesRef st) (isStoppingRef st) (created st)
    (streams st) (effects st).

Definition set_sourcesRef (l : list nat) (st : State) : State :=
  mkState (isActive st) (transcription st) (isConnecting st) (authError st)
    (sessionRef st) (nextStartTimeRef st) l (isStoppingRef st) (created st)
    (streams st) (effects st).

Definition set_isStoppingRef (b : bool) (st : State) : State :=
  mkState (isActive st) (transcription st) (isConnecting st) (authError st)
    (sessionRef st) (nextStartTimeRef st) (sourcesRef st) b (created st)
    (streams st) (effects st).

Definition set_created (n : nat) (st : State) : State :=
  mkState (isActive st) (transcription st) (isConnecting st) (authError st)
    (sessionRef st) (nextStartTimeRef st) (sourcesRef st) (isStoppingRef st) n
    (streams st) (effects st).

Definition set_streams (n : nat) (st : State) : State :=
  mkState (isActive st) (transcription st) (isConnecting st) (authError st)
    (sessionRef st) (nextStartTimeRef st) (sourcesRef st) (isStoppingRef st)
    (created st) n (effects st).

(** Performs a call: appends it to the record of calls. *)
Definition emit (e : Effect) (st : State) : State :=
  mkState (isActive st) (transcription st) (isConnecting st) (authError st)
    (sessionRef st) (nextStartTimeRef st) (sourcesRef st) (isStoppingRef st)
    (created st) (streams st) (effects st ++ [e]).

(** [Set.prototype.add] and [Set.prototype.delete]. *)
Definition set_add (x : nat) (s : list nat) : list nat :=
  if existsb (Nat.eqb x) s then s else s ++ [x].

Definition set_delete (x : nat) (s : list nat) : list nat :=
  List.filter (fun y => negb (Nat.eqb x y)) s.

(** [sourcesRef.current.forEach(s => { try { s.stop(); } catch (e) {} })]:
    one [stop()] per member, in insertion order; what a call throws is
    swallowed. *)
Definition stopAll (st : State) : State :=
  fold_left (fun s source => emit (Stop source) s) (sourcesRef st) st.

(** ** Errors and the authorization test *)

(** A thrown value, by the [message] the handlers read from it. *)
Record Error := mkError { message : option string }.

(** [String.prototype.includes]. *)
Fixpoint includes (needle hay : string) : bool :=
  String.prefix needle hay
  || match hay with
     | EmptyString => false
     | String _ rest => includes needle rest
     end.

(** [String.prototype.toLowerCase], on the ASCII letters. *)
Definition lower (c : ascii) : ascii :=
  let n := nat_of_ascii c in
  if ((65 <=? n) && (n <=? 90))%nat then ascii_of_nat (n + 32) else c.

Fixpoint toLowerCase (s : string) : string :=
  match s with
  | EmptyString => EmptyString
  | String c rest => String (lower c) (toLowerCase rest)
  end.

(** [e?.message?.includes('403') ||
     e?.message?.toLowerCase().includes('permission')]. *)
Definition isAuthorizationError (e : Error) : bool :=
  match message e with
  | Some m => includes "403" m || includes "permission" (toLowerCase m)
  | None => false
  end.

(** The result an awaited promise settles with. *)
Inductive Settled (A : Type) :=
| Resolved (a : A)
| Rejected (e : Error).
Arguments Resolved {A} a.
Arguments Rejected {A} e.

(** ** [stopSession] *)

Definition sessionEnded : string := "[Session Ended]".

Definition stopSession (st : State) : State :=
  if isStoppingRef st then st
  else
    let st := set_isStoppingRef true st in
    let st := set_isActive false st in
    let st :=
      match sessionRef st with
      | Some session => set_sessionRef None (emit (Close session) st)
      | None => st
      end in
    let st :=
      set_transcription
        (let prev := transcription st in
         match last prev with
         | Some line =>
             if String.eqb line sessionEnded then prev
             else prev ++ [sessionEnded]
         | None => prev ++ [sessionEnded]
         end) st in
    let st := stopAll st in
    set_sourcesRef [] st.

(** ** [startSession]

    An async function: it runs up to its first [await], and is resumed
    twice, with what [getUserMedia] and then [ai.live.connect] settled
    with.  Everything runs inside one [try]; [startSession_catch] is its
    [catch] block. *)

Definition startSession_catch (err : Error) (st : State) : State :=
  let st := if isAuthorizationError err then set_authError true st else st in
  set_isConnecting false st.

(** From the call to the first [await].  [ai] is what [getAI()] does: it
    returns, or throws. *)
Definition startSession (ai : Settled unit) (st : State) : State :=
  let st := set_authError false st in
  let st := set_isConnecting true st in
  let st := set_isStoppingRef false st in
  match ai with
  | Rejected err => startSession_catch err st
  | Resolved _ => emit GetUserMedia st
  end.

(** Resumed with the microphone stream: the two audio contexts are
    created and [ai.live.connect] is called. *)
Definition startSession_stream (stream : Settled unit) (st : State) : State :=
  match stream with
  | Rejected err => startSession_catch err st
  | Resolved _ => emit Connect (set_streams (S (streams st)) st)
  end.

(** Resumed with the session: [sessionRef.current = await sessionPromise]. *)
Definition startSession_session (session : Settled nat) (st : State) : State :=
  match session with
  | Rejected err => startSession_catch err st
  | Resolved h => set_sessionRef (Some h) st
  end.

(** ** The callbacks given to [ai.live.connect] *)

Definition onopen (st : State) : State :=
  let st := set_isConnecting false st in
  let st := set_isActive true st in
  set_transcription (transcription st ++ ["[Connection Established]"%string]) st.

(** [scriptProcessor.onaudioprocess], for the processor of the session
    [session]: the frame is encoded, and sent unless the stop guard is
    set. *)
Definition onaudioprocess (session : nat) (inputData : list Q) (st : State)
  : State :=
  let data := encodeFrame inputData in
  if negb (isStoppingRef st) then emit (SendRealtimeInput session data) st
  else st.

(** What reading
    [message.serverContent?.modelTurn?.parts[0]?.inlineData?.data] gives.
    There is no [?.] between [parts] and [[0]]: on a model turn that has
    no [parts] array the read throws a [TypeError]. *)
Inductive InlineData :=
| NoParts                      (* a model turn without [parts]: the read throws *)
| NoData                       (* [undefined] *)
| Data (base64 : list ascii).  (* the string read *)

(** What the handler reads of a [LiveServerMessage]. *)
Record Message := mkMessage {
  outputTranscription : option string;  (* serverContent.outputTranscription.text *)
  inlineData : InlineData;              (* modelTurn.parts[0].inlineData.data *)
  interrupted : bool                    (* serverContent.interrupted *)
}.

(** How a run of the async handler ends: its promise is fulfilled, or it
    is rejected with what was thrown inside. *)
Inductive Completion := Fulfilled | Thrown.

(** The block guarded by [if (base64Audio)].  [currentTime] is
    [ctx.currentTime]. *)
Definition schedule (currentTime : Q) (base64Audio : list ascii) (st : State)
  : State * Completion :=
  let st :=
    set_nextStartTimeRef (Qmax (nextStartTimeRef st) currentTime) st in
  match decodeToAudioBuffer base64Audio with
  | None => (st, Thrown)
  | Some audioBuffer =>
      let source := created st in
      let st := set_created (S source) st in
      let st := emit (Start source (nextStartTimeRef st) (duration audioBuffer)) st in
      let st :=
        set_nextStartTimeRef (nextStartTimeRef st + duration audioBuffer)%Q st in
      (set_sourcesRef (set_add source (sourcesRef st)) st, Fulfilled)
  end.

(** The block guarded by [if (message.serverContent?.interrupted)]. *)
Definition interrupt (st : State) : State :=
  let st := stopAll st in
  let st := set_sourcesRef [] st in
  set_nextStartTimeRef 0%Q st.

Definition onmessage (currentTime : Q) (m : Message) (st : State)
  : State * Completion :=
  if isStoppingRef st then (st, Fulfilled)
  else
    let st :=
      match outputTranscription m with
      | Some text =>
          set_transcription (transcription st ++ [("AI: " ++ text)%string]) st
      | None => st
      end in
    let r :=
      match inlineData m with
      | NoParts => (st, Thrown)
      | Data (c :: s) => schedule currentTime (c :: s) st
      | _ => (st, Fulfilled)
      end in
    match r with
    | (st, Thrown) => (st, Thrown)
    | (st, Fulfilled) =>
        if interrupted m then (interrupt st, Fulfilled) else (st, Fulfilled)
    end.

(** The ['ended'] listener of a source. *)
Definition onended (source : nat) (st : State) : State :=
  set_sourcesRef (set_delete source (sourcesRef st)) st.

Definition onerror (e : Error) (st : State) : State :=
  let st := if isAuthorizationError e then set_authError true st else st in
  stopSession st.

Definition onclose (st : State) : State := stopSession st.

(** ** The call button

    [onClick={isActive ? stopSession : startSession}], with
    [disabled={isConnecting}]: the only place [startSession] is called
    from. *)
Definition onClick (ai : Settled unit) (st : State) : State :=
  if isConnecting st then st
  else if isActive st then stopSession st
  else startSession ai st.

(** The lifecycle states of the specification, read off the component's
    flags: a session is in progress when the button shows it connecting
    or active, and it is stopping when in addition the stop guard is
    set. *)
Inductive Lifecycle := IDLE | CONNECTING | ACTIVE | STOPPING.

Definition lifecycle (st : State) : Lifecycle :=
  if isConnecting st || isActive st then
    if isStoppingRef st then STOPPING
    else if isConnecting st then CONNECTING else ACTIVE
  else IDLE.

(** ** Vocabulary of the properties *)

(** The calls of one kind in a record of calls. *)
Definition acquisitions (l : list Effect) : nat :=
  length (List.filter (fun e => match e with GetUserMedia => true | _ => false end) l).

Definition connections (l : list Effect) : nat :=
  length (List.filter (fun e => match e with Connect => true | _ => false end) l).

Definition sends (l : list Effect) : list (nat * list ascii) :=
  flat_map (fun e => match e with SendRealtimeInput h d => [(h, d)] | _ => [] end) l.

(** The scheduled sources, as (startTime, duration), in scheduling order. *)
Definition scheduled (l : list Effect) : list (Q * Q) :=
  flat_map (fun e => match e with Start _ t d => [(t, d)] | _ => [] end) l.

(** An audio-only message. *)
Definition audioMessage (payload : list ascii) : Message :=
  mkMessage None (Data payload) false.

(** Chunks, each with the device time at its arrival, delivered in turn. *)
Fixpoint deliver (chunks : list (Q * list ascii)) (st : State) : State :=
  match chunks with
  | [] => st
  | (t, payload) :: rest =>
      deliver rest (fst (onmessage t (audioMessage payload) st))
  end.

(** A payload the handler schedules: not empty, and it decodes. *)
Definition playable (payload : list ascii) : Prop :=
  payload <> [] /\ exists b, decodeToAudioBuffer payload = Some b.

(** A message whose inline audio is read without error and, when it has
    any, decodes. *)
Definition decodable (m : Message) : Prop :=
  match inlineData m with
  | NoParts => False
  | Data (c :: s) => exists b, decodeToAudioBuffer (c :: s) = Some b
  | _ => True
  end.

(** The duration of a payload; 0 when it does not decode. *)
Definition payload_duration (payload : list ascii) : Q :=
  match decodeToAudioBuffer payload with
  | Some b => duration b
  | None => 0%Q
  end.

(** The schedule as the specification words it: a chunk starts at the
    later of the cursor and the device time, and the cursor moves to its
    end.
    Given the cursor and the (arrival time, duration) of the chunks, the
    (startTime, duration) of the sources. *)
Fixpoint timeline (cursor : Q) (chunks : list (Q * Q)) : list (Q * Q) :=
  match chunks with
  | [] => []
  | (t, d) :: rest =>
      let start := Qmax cursor t in
      (start, d) :: timeline (start + d)%Q rest
  end.

Definition Qsum (l : list Q) : Q := fold_right Qplus 0%Q l.

(** The chunks arrive on time from a cursor: none arrives after the
    device clock has passed the cursor left by the chunk before it. *)
Fixpoint on_time (cursor : Q) (chunks : list (Q * Q)) : Prop :=
  match chunks with
  | [] => True
  | (t, d) :: rest => (t <= cursor)%Q /\ on_time (Qmax cursor t + d)%Q rest
  end.

(** The (arrival time, duration) of chunks given by their payloads. *)
Definition arrivals (chunks : list (Q * list ascii)) : list (Q * Q) :=
  List.map (fun c => (fst c, payload_duration (snd c))) chunks.

(** ** Scenarios *)

Definition demo_ok : Settled unit := Resolved tt.

Definition demo_denied : Error := mkError (Some "403 Forbidden"%string).

(** The button pressed on the initial state, and the microphone granted. *)
Definition demo_connecting : State :=
  startSession_stream demo_ok (onClick demo_ok initial).

(** A session that has opened. *)
Definition demo_active : State :=
  onopen (startSession_session (Resolved 7%nat) demo_connecting).

(** A second attempt, after a first one that ended on an error before the
    connection opened. *)
Definition demo_retry : State :=
  startSession_stream demo_ok
    (onClick demo_ok
       (startSession_session (Rejected demo_denied)
          (onerror demo_denied demo_connecting))).

(** One sample (two bytes), three samples, and a single byte. *)
Definition demo_chunk1 : list ascii := list_ascii_of_string "AAA=".
Definition demo_chunk3 : list ascii := list_ascii_of_string "AAAAAAAA".
Definition demo_odd : list ascii := list_ascii_of_string "AA".

(** An open session with two sources scheduled. *)
Definition demo_playing : State :=
  deliver [(0%Q, demo_chunk1); (0%Q, demo_chunk3)] demo_active.

(** ** The event loop

    What the browser and the transport may call on the component, one
    handler run at a time. *)
Inductive Event :=
| Click (ai : Settled unit)                   (* the call button *)
| StreamSettled (stream : Settled unit)       (* getUserMedia settles *)
| SessionSettled (session : Settled nat)      (* sessionPromise settles *)
| Opened                                      (* onopen *)
| Captured (session : nat) (inputData : list Q) (* onaudioprocess *)
| Inbound (currentTime : Q) (m : Message)     (* onmessage *)
| Ended (source : nat)                        (* 'ended' on a source *)
| Failed (e : Error)                          (* onerror *)
| Closed.                                     (* onclose *)

Definition handle (ev : Event) (st : State) : State :=
  match ev with
  | Click ai => onClick ai st
  | StreamSettled stream => startSession_stream stream st
  | SessionSettled session => startSession_session session st
  | Opened => onopen st
  | Captured session inputData => onaudioprocess session inputData st
  | Inbound currentTime m => fst (onmessage currentTime m st)
  | Ended source => onended source st
  | Failed e => onerror e st
  | Closed => onclose st
  end.

Definition run (evs : list Event) (st : State) : State :=
  fold_left (fun s ev => handle ev s) evs st.

(** The callbacks of a session, as opposed to the button and to the
    continuations of [startSession]. *)
Definition session_callback (ev : Event) : bool :=
  match ev with
  | Captured _ _ | Inbound _ _ | Ended _ | Failed _ | Closed => true
  | _ => false
  end.

Definition authorization_failure (ev : Event) : bool :=
  match ev with
  | Failed e => isAuthorizationError e
  | _ => false
  end.

(** The sources started, and those force-stopped, in a record of calls. *)
Definition started (l : list Effect) : list nat :=
  flat_map (fun e => match e with Start source _ _ => [source] | _ => [] end) l.

Definition stopped (l : list Effect) : list nat :=
  flat_map (fun e => match e with Stop source => [source] | _ => [] end) l.

(** What the scheduler keeps true of its active set, its cursor and the
    calls made on sources. *)
Definition scheduler_inv
    (active : list nat) (n : nat) (cursor : Q) (l : list Effect) : Prop :=
  List.NoDup active
  /\ (forall source, In source active -> (source < n)%nat)
  /\ (forall source, In source active -> ~ In source (stopped l))
  /\ List.NoDup (stopped l)
  /\ (forall source, In source (stopped l) -> (source < n)%nat)
  /\ started l = seq 0 n
  /\ (forall source t d,
        In (Start source t d) l -> In source active -> (t + d <= cursor)%Q).

(** No two "[Session Ended]" lines in a row. *)
Definition no_double_end (log : list string) : Prop :=
  forall pre post, log <> pre ++ [sessionEnded; sessionEnded] ++ post.

(** The test the render applies to a line of the log,
    [line.startsWith('AI:')]: it chooses the agent's style. *)
Definition agentLine (line : string) : bool := String.prefix "AI:" line.

(** A call that is neither a start nor a stop of a source. *)
Definition other_call (e : Effect) : bool :=
  match e with
  | Start _ _ _ | Stop _ => false
  | _ => true
  end.

(** The invariant, on a state. *)
Definition inv (st : State) : Prop :=
  scheduler_inv (sourcesRef st) (created st) (nextStartTimeRef st) (effects st).

(** The lines the handlers append, the end marker apart. *)
Definition agent_or_opening (line : string) : Prop :=
  line = "[Connection Established]"%string
  \/ exists text, line = ("AI: " ++ text)%string.

(** ** SettingsLab.tsx: [previewVoice] *)

Record Preview := mkPreview {
  isPreviewing : bool;
  previews : list Q            (* the buffers started, by their duration *)
}.

(** From the call to the [await] of [generateContent]; the boolean tells
    whether the request was made. *)
Definition previewVoice (ai : Settled unit) (st : Preview) : Preview * bool :=
  if isPreviewing st then (st, false)
  else
    match ai with
    | Rejected _ => (mkPreview false (previews st), false)
    | Resolved _ => (mkPreview true (previews st), true)
    end.

(** Resumed with the response; [base64Audio] is
    [candidates?.[0]?.content?.parts?.[0]?.inlineData?.data]. *)
Definition previewVoice_response
    (response : Settled (option (list ascii))) (st : Preview) : Preview :=
  match response with
  | Resolved (Some (c :: s)) =>
      match decodeToAudioBuffer (c :: s) with
      | Some audioBuffer =>
          mkPreview (isPreviewing st) (previews st ++ [duration audioBuffer])
      | None => mkPreview false (previews st)
      end
  | Resolved _ => mkPreview false (previews st)
  | Rejected _ => mkPreview false (previews st)
  end.

(** [source.onended]. *)
Definition preview_onended (st : Preview) : Preview :=
  mkPreview false (previews st).

(** ** services/gemini.ts: [improvePrompt] and [fileToBase64] *)

(** [String.prototype.trim], on strings of code units below 256: the
    white space there is tab, line feed, vertical tab, form feed,
    carriage return, space and no-break space. *)
Definition is_space (c : ascii) : bool :=
  match nat_of_ascii c with
  | 9%nat | 10%nat | 11%nat | 12%nat | 13%nat | 32%nat | 160%nat => true
  | _ => false
  end.

Fixpoint trimStart (s : list ascii) : list ascii :=
  match s with
  | c :: r => if is_space c then trimStart r else s
  | [] => []
  end.

Definition trim_chars (s : list ascii) : list ascii :=
  rev (trimStart (rev (trimStart s))).

Definition trim (s : string) : string :=
  string_of_list_ascii (trim_chars (list_ascii_of_string s)).

(** [improvePrompt(text)].  [ai] is what [getAI()] does and [response]
    what [generateContent] settles with, by its [text]. *)
Definition improvePrompt
    (ai : Settled unit) (response : Settled (option string)) (text : string)
  : string :=
  if ((String.length text =? 0) || (String.length (trim text) <? 2))%nat
  then text
  else
    match ai with
    | Rejected _ => text
    | Resolved _ =>
        match response with
        | Resolved (Some t) =>
            if (String.length (trim t) =? 0)%nat then text else trim t
        | Resolved None => text
        | Rejected _ => text
        end
    end.

(** [String.prototype.split] on a one-character separator. *)
Fixpoint split_on (sep : ascii) (s : list ascii) : list (list ascii) :=
  match s with
  | [] => [[]]
  | c :: r =>
      if Ascii.eqb c sep then [] :: split_on sep r
      else
        match split_on sep r with
        | piece :: pieces => (c :: piece) :: pieces
        | [] => [[c]]
        end
  end.

Definition comma : ascii := ","%char.

(** [fileToBase64(file)], from what the reader loads or fails with:
    [(reader.result as string).split(',')[1]], which is [undefined]
    ([None]) when the text has no comma. *)
Definition fileToBase64 (result : Settled (list ascii))
  : Settled (option (list ascii)) :=
  match result with
  | Resolved dataURL => Resolved (nth_error (split_on comma dataURL) 1)
  | Rejected error => Rejected error
  end.

(** ** VideoLab.tsx: [handleImprove] *)

Record PromptBox := mkPromptBox {
  prompt : string;
  isImproving : bool
}.

(** From the click to the [await]: the prompt captured for
    [improvePrompt], when the request is made. *)
Definition handleImprove (st : PromptBox) : PromptBox * option string :=
  if (String.length (trim (prompt st)) =? 0)%nat || isImproving st
  then (st, None)
  else (mkPromptBox (prompt st) true, Some (prompt st)).

(** Resumed with what [improvePrompt] returned. *)
Definition handleImprove_resume (improved : string) (st : PromptBox)
  : PromptBox :=
  mkPromptBox improved false.

(** * Properties *)

Ltac dlia := Z.div_mod_to_equations; lia.

(** ** Base64: [atob] inverts [btoa] *)

Module Base64Facts.
Import Base64.

Lemma list_ind3 {A} (P : list A -> Prop) :
  P [] -> (forall a, P [a]) -> (forall a b, P [a; b]) ->
  (forall a b c l, P l -> P (a :: b :: c :: l)) ->
  forall l, P l.
Proof.
  intros H0 H1 H2 H3.
  fix IH 1. intros [|a [|b [|c l]]];
    [exact H0 | exact (H1 a) | exact (H2 a b) | exact (H3 a b c l (IH l))].
Qed.

Lemma sextet_cases (P : Z -> Prop) :
  (forall n, (n < 64)%nat -> P (Z.of_nat n)) -> forall v, is_sextet v -> P v.
Proof.
  intros H v Hv. rewrite <- (Z2Nat.id v) by (unfold is_sextet in Hv; lia).
  apply H. unfold is_sextet in Hv. lia.
Qed.

Lemma all_below (f : nat -> bool) (k : nat) :
  forallb f (seq 0 k) = true -> forall n, (n < k)%nat -> f n = true.
Proof.
  intros H n Hn. rewrite forallb_forall in H. apply H.
  apply in_seq. lia.
Qed.

Lemma value_of_char_of v : is_sextet v -> value_of (char_of v) = Some v.
Proof.
  revert v. apply sextet_cases. intros n Hn.
  pose (f := fun n => match value_of (char_of (Z.of_nat n)) with
                      | Some w => w =? Z.of_nat n | None => false end).
  assert (Hf : f n = true) by (apply (all_below f 64); [vm_compute; reflexivity | exact Hn]).
  unfold f in Hf. destruct (value_of _) as [w|]; [|discriminate].
  f_equal. lia.
Qed.

Lemma char_of_plain v :
  is_sextet v ->
  Ascii.eqb (char_of v) pad = false /\ is_whitespace (char_of v) = false.
Proof.
  revert v. apply sextet_cases. intros n Hn.
  pose (f := fun n => negb (Ascii.eqb (char_of (Z.of_nat n)) pad)
                      && negb (is_whitespace (char_of (Z.of_nat n)))).
  assert (Hf : f n = true) by (apply (all_below f 64); [vm_compute; reflexivity | exact Hn]).
  unfold f in Hf. apply andb_true_iff in Hf as [H1 H2].
  apply negb_true_iff in H1, H2. auto.
Qed.

Lemma sextets_range bs : Forall is_byte bs -> Forall is_sextet (sextets bs).
Proof.
  induction bs as [|a|a b|a b c l IH] using list_ind3; intros H.
  - constructor.
  - inversion_clear H as [|? ? Ha _]. unfold is_byte, is_sextet in *.
    cbn [sextets]. repeat (constructor; [cbv beta; dlia|]). constructor.
  - inversion_clear H as [|? ? Ha H']. inversion_clear H' as [|? ? Hb _].
    unfold is_byte, is_sextet in *. cbn [sextets]. repeat (constructor; [cbv beta; dlia|]). constructor.
  - inversion_clear H as [|? ? Ha H']. inversion_clear H' as [|? ? Hb H''].
    inversion_clear H'' as [|? ? Hc Hl].
    unfold is_byte, is_sextet in *.
    cbn [sextets]. repeat (constructor; [cbv beta; dlia|]). auto.
Qed.

Lemma bytes_of_sextets bs : Forall is_byte bs -> bytes_of (sextets bs) = bs.
Proof.
  induction bs as [|a|a b|a b c l IH] using list_ind3; intros H.
  - reflexivity.
  - inversion_clear H as [|? ? Ha _]. unfold is_byte in *.
    cbn [sextets bytes_of]. f_equal. dlia.
  - inversion_clear H as [|? ? Ha H']. inversion_clear H' as [|? ? Hb _].
    unfold is_byte in *. cbn [sextets bytes_of]. repeat (f_equal; try dlia).
  - inversion_clear H as [|? ? Ha H']. inversion_clear H' as [|? ? Hb H''].
    inversion_clear H'' as [|? ? Hc Hl]. unfold is_byte in *.
    cbn [sextets bytes_of]. rewrite IH by assumption.
    repeat (f_equal; try dlia).
Qed.

Lemma values_chars vs :
  Forall is_sextet vs -> values (List.map char_of vs) = Some vs.
Proof.
  induction 1 as [|v vs Hv _ IH]; [reflexivity|].
  cbn [List.map values]. rewrite (value_of_char_of v Hv), IH. reflexivity.
Qed.

Lemma filter_chars vs :
  Forall is_sextet vs ->
  List.filter (fun c => negb (is_whitespace c)) (List.map char_of vs)
  = List.map char_of vs.
Proof.
  induction 1 as [|v vs Hv _ IH]; [reflexivity|].
  cbn [List.map List.filter].
  destruct (char_of_plain v Hv) as [_ ->]. cbn [negb]. now rewrite IH.
Qed.

Lemma filter_padding n :
  List.filter (fun c => negb (is_whitespace c)) (padding n) = padding n.
Proof. unfold padding. destruct (n mod 3)%nat as [|[|[|k]]]; reflexivity. Qed.

(** Shape of the encoding, by the length of the input modulo 3. *)
Lemma sextets_length bs :
  ((length bs mod 3 = 0 /\ length (sextets bs) mod 4 = 0)
   \/ (length bs mod 3 = 1 /\ length (sextets bs) mod 4 = 2)
   \/ (length bs mod 3 = 2 /\ length (sextets bs) mod 4 = 3))%nat.
Proof.
  induction bs as [|a|a b|a b c l IH] using list_ind3.
  - left. split; reflexivity.
  - right; left. split; reflexivity.
  - right; right. split; reflexivity.
  - cbn [sextets length].
    replace (S (S (S (length l)))) with (length l + 1 * 3)%nat by lia.
    replace (S (S (S (S (length (sextets l))))))
      with (length (sextets l) + 1 * 4)%nat by lia.
    rewrite !Nat.Div0.mod_add. exact IH.
Qed.

Lemma strip_plain (s : list ascii) c :
  Ascii.eqb c pad = false -> strip_padding (s ++ [c]) = s ++ [c].
Proof.
  intros Hc. unfold strip_padding. rewrite rev_app_distr. cbn [rev app].
  destruct (rev s); [reflexivity|]. now rewrite Hc.
Qed.

Lemma strip_one (s : list ascii) c :
  Ascii.eqb c pad = false -> strip_padding ((s ++ [c]) ++ [pad]) = s ++ [c].
Proof.
  intros Hc. unfold strip_padding. rewrite !rev_app_distr. cbn [rev app].
  rewrite Hc. cbn. rewrite rev_involutive. reflexivity.
Qed.

Lemma strip_two (s : list ascii) :
  strip_padding (s ++ [pad; pad]) = s.
Proof.
  unfold strip_padding. rewrite rev_app_distr. cbn [rev app].
  cbn. apply rev_involutive.
Qed.

Lemma chars_snoc vs :
  Forall is_sextet vs -> vs <> [] ->
  exists s c, List.map char_of vs = s ++ [c] /\ Ascii.eqb c pad = false.
Proof.
  intros Hvs Hne. destruct (exists_last Hne) as (vs' & v & ->).
  exists (List.map char_of vs'), (char_of v). split.
  - now rewrite map_app.
  - apply char_of_plain. rewrite Forall_app in Hvs. destruct Hvs as [_ Hv].
    now inversion Hv.
Qed.

(** [atob] inverts [btoa] on every byte string. *)
Lemma atob_btoa bs : Forall is_byte bs -> atob (btoa bs) = Some bs.
Proof.
  intros Hbs. pose proof (sextets_range bs Hbs) as Hvs.
  unfold atob, btoa. cbv zeta.
  rewrite List.filter_app, filter_chars, filter_padding by assumption.
  assert (Hstrip :
    (if (length (List.map char_of (sextets bs) ++ padding (length bs)) mod 4 =? 0)%nat
     then strip_padding (List.map char_of (sextets bs) ++ padding (length bs))
     else List.map char_of (sextets bs) ++ padding (length bs))
    = List.map char_of (sextets bs)).
  { rewrite length_app, length_map. unfold padding.
    destruct (sextets_length bs) as [[Hn Hm]|[[Hn Hm]|[Hn Hm]]]; rewrite Hn.
    - rewrite app_nil_r, Nat.add_0_r, Hm. cbn [Nat.eqb].
      destruct (sextets bs) as [|v vs] eqn:E; [reflexivity|].
      destruct (chars_snoc (v :: vs)) as (s & c & -> & Hc);
        [assumption | discriminate |].
      now apply strip_plain.
    - cbn [length]. rewrite <- Nat.Div0.add_mod_idemp_l, Hm. cbn [Nat.add Nat.modulo].
      change ((2 + 2) mod 4 =? 0)%nat with true. cbv iota.
      apply strip_two.
    - cbn [length]. rewrite <- Nat.Div0.add_mod_idemp_l, Hm.
      change ((3 + 1) mod 4 =? 0)%nat with true. cbv iota.
      destruct (sextets bs) as [|v vs] eqn:E; [discriminate Hm|].
      destruct (chars_snoc (v :: vs)) as (s & c & -> & Hc);
        [assumption | discriminate |].
      now apply strip_one. }
  rewrite Hstrip, length_map.
  assert (Hlen : (length (sextets bs) mod 4 =? 1)%nat = false).
  { apply Nat.eqb_neq.
    destruct (sextets_length bs) as [[_ Hm]|[[_ Hm]|[_ Hm]]]; rewrite Hm; lia. }
  rewrite Hlen, values_chars by assumption.
  now rewrite bytes_of_sextets.
Qed.

End Base64Facts.

(** ** Sixteen-bit samples *)

Lemma wrap16_range n : is_int16 (wrap16 n).
Proof. unfold is_int16, wrap16. dlia. Qed.

Lemma wrap16_id v : is_int16 v -> wrap16 v = v.
Proof. unfold is_int16, wrap16. intros H. dlia. Qed.

Lemma int16_bytes_ok l : Forall is_byte (int16_bytes l).
Proof.
  induction l as [|v l IH]; cbn [int16_bytes]; [constructor|].
  constructor; [unfold is_byte; dlia|].
  constructor; [unfold is_byte; dlia|exact IH].
Qed.

Lemma bytes_int16_bytes l : bytes_int16 (int16_bytes l) = Some (List.map wrap16 l).
Proof.
  induction l as [|v l IH]; [reflexivity|].
  cbn [int16_bytes bytes_int16 List.map]. rewrite IH. do 2 f_equal.
  unfold wrap16. dlia.
Qed.

Lemma map_nth_seq {A B} (f : A -> B) (d : A) (l : list A) :
  List.map (fun i => f (nth (i * 1 + 0) l d)) (seq 0 (length l)) = List.map f l.
Proof.
  induction l as [|a l IH]; [reflexivity|].
  cbn [length seq List.map]. f_equal.
  rewrite <- seq_shift, List.map_map. rewrite <- IH.
  apply List.map_ext. intros i. now rewrite !Nat.mul_1_r, !Nat.add_0_r.
Qed.

(** A mono payload of at least one sample decodes to one channel holding
    each 16-bit value over 32768. *)
Lemma decodeAudioData_mono l rate :
  l <> [] ->
  3000 <= rate <= 768000 ->
  decodeAudioData (int16_bytes l) rate 1
  = Some (mkAudioBuffer 1 (length l) rate
            [List.map (fun v => Qmake (wrap16 v) 32768) l]).
Proof.
  intros Hne Hrate. unfold decodeAudioData. rewrite bytes_int16_bytes.
  cbv zeta. rewrite Nat.div_1_r.
  assert (Hz : createBuffer_accepts 1 (length (List.map wrap16 l)) rate = true).
  { unfold createBuffer_accepts.
    destruct l; [contradiction|]. cbn [List.map length Nat.leb andb].
    apply andb_true_intro. split; [apply Z.leb_le | apply Z.leb_le]; lia. }
  rewrite Hz. cbn [negb seq List.map].
  rewrite (map_nth_seq (fun v => Qmake v 32768) 0%Z (List.map wrap16 l)).
  now rewrite List.map_map, length_map.
Qed.

Local Open Scope Q_scope.

Lemma trunc_bounds (q : Q) :
  (0 <= q -> inject_Z (trunc q) <= q /\ q < inject_Z (trunc q) + 1)
  /\ (q <= 0 -> q <= inject_Z (trunc q) /\ inject_Z (trunc q) - 1 < q).
Proof.
  destruct q as [n d]. unfold trunc, Qle, Qlt, inject_Z. cbn.
  pose proof (Z.quot_rem' n (Z.pos d)) as E.
  split; intros Hq.
  - assert (Hn : (0 <= n)%Z) by lia.
    pose proof (Z.rem_bound_pos n (Z.pos d) Hn ltac:(lia)). nia.
  - assert (Hn : (n <= 0)%Z) by lia.
    pose proof (Z.rem_bound_pos_neg n (Z.pos d) ltac:(lia) Hn). nia.
Qed.

(** One sample through the codec. *)
Lemma sample_roundtrip (x : Q) :
  -1 <= x -> x < 1 ->
  Qabs (Qmake (wrap16 (ToInt16 (x * 32768))) 32768 - x) < 1 # 32768.
Proof.
  intros Hlo Hhi.
  unfold ToInt16. rewrite wrap16_id by apply wrap16_range.
  set (y := x * 32768).
  assert (Hy : -32768 <= y /\ y < 32768) by (unfold y; split; lra).
  pose proof (trunc_bounds y) as [Hpos Hneg].
  assert (Ht : inject_Z (trunc y) - 1 < y /\ y < inject_Z (trunc y) + 1
               /\ -32768 <= inject_Z (trunc y) /\ inject_Z (trunc y) < 32768).
  { destruct (Qlt_le_dec y 0) as [Hs|Hs].
    - destruct (Hneg (Qlt_le_weak _ _ Hs)) as [H1 H2]. repeat split; lra.
    - destruct (Hpos Hs) as [H1 H2]. repeat split; lra. }
  destruct Ht as (H1 & H2 & H3 & H4).
  assert (Hr : is_int16 (trunc y)).
  { unfold is_int16. split.
    - rewrite Zle_Qle. exact H3.
    - rewrite Zlt_Qlt. exact H4. }
  rewrite wrap16_id by exact Hr.
  assert (E : Qmake (trunc y) 32768 == inject_Z (trunc y) * (1 # 32768)).
  { unfold Qeq, Qmult, inject_Z. cbn. lia. }
  rewrite E. apply Qabs_Qlt_condition. unfold y in *. split; lra.
Qed.

Import Base64Facts.

(** ** The PCM round trip *)

Lemma decode_encode bytes : Forall is_byte bytes -> decode (encode bytes) = Some bytes.
Proof. apply atob_btoa. Qed.

Lemma decodeToAudioBuffer_encodeFrame (samples : list Q) :
  samples <> [] ->
  decodeToAudioBuffer (encodeFrame samples)
  = Some (mkAudioBuffer 1 (length samples) 24000
            [List.map (fun x => Qmake (wrap16 (ToInt16 (x * 32768))) 32768) samples]).
Proof.
  intros Hne. unfold decodeToAudioBuffer, encodeFrame.
  rewrite decode_encode by apply int16_bytes_ok.
  rewrite decodeAudioData_mono.
  - now rewrite length_map, List.map_map.
  - destruct samples; [contradiction | discriminate].
  - lia.
Qed.

(** C4, as amended.  For every non-empty sequence of samples in [-1, 1),
    decoding the encoded frame gives one channel of as many samples, each
    within 1/32768 of the original. *)
Theorem roundtrip_within_quantization (samples : list Q) :
  samples <> [] ->
  Forall (fun x => -1 <= x /\ x < 1) samples ->
  exists out,
    decodeToAudioBuffer (encodeFrame samples)
    = Some (mkAudioBuffer 1 (length samples) 24000 [out])
    /\ Forall2 (fun x y => Qabs (y - x) < 1 # 32768) samples out.
Proof.
  intros Hne Hrange. eexists. split.
  - apply decodeToAudioBuffer_encodeFrame, Hne.
  - clear Hne. induction Hrange as [|x l [Hlo Hhi] _ IH]; cbn [List.map].
    + constructor.
    + constructor; [apply sample_roundtrip; assumption | exact IH].
Qed.

Lemma roundtrip_within_quantization_witness :
  exists out,
    decodeToAudioBuffer (encodeFrame [1 # 2; -1; 0])
    = Some (mkAudioBuffer 1 3 24000 [out])
    /\ Forall2 (fun x y => Qabs (y - x) < 1 # 32768) [1 # 2; -1; 0] out.
Proof.
  apply (roundtrip_within_quantization [1 # 2; -1; 0]).
  - discriminate.
  - repeat constructor; cbv; congruence.
Defined.

(** C4, as stated, fails at full scale: the sample 1 is stored as 32768,
    which wraps to -32768, and comes back as -1; and the frame of no
    samples does not decode at all. *)
Lemma roundtrip_full_scale_wraps :
  decodeToAudioBuffer (encodeFrame [1])
  = Some (mkAudioBuffer 1 1 24000 [[-32768 # 32768]])
  /\ ~ Qabs ((-32768 # 32768) - 1) <= 1 # 32768
  /\ decodeToAudioBuffer (encodeFrame []) = None.
Proof.
  split; [vm_compute; reflexivity|]. split; [|vm_compute; reflexivity].
  cbv. intros H. apply H. reflexivity.
Qed.

(** ** Teardown *)

Lemma stop_each (l : list nat) (st : State) :
  fold_left (fun s source => emit (Stop source) s) l st
  = mkState (isActive st) (transcription st) (isConnecting st) (authError st)
      (sessionRef st) (nextStartTimeRef st) (sourcesRef st) (isStoppingRef st)
      (created st) (streams st) (effects st ++ List.map Stop l).
Proof.
  revert st. induction l as [|x l IH]; intros st.
  - destruct st. cbn. now rewrite app_nil_r.
  - cbn [fold_left List.map]. rewrite IH. cbn. now rewrite <- app_assoc.
Qed.

Lemma stopAll_effects st :
  effects (stopAll st) = effects st ++ List.map Stop (sourcesRef st).
Proof. unfold stopAll. now rewrite stop_each. Qed.

Lemma stopSession_latched st : isStoppingRef st = true -> stopSession st = st.
Proof. intros H. unfold stopSession. now rewrite H. Qed.

(** What the first [stopSession] of a session does. *)
Lemma stopSession_first st :
  isStoppingRef st = false ->
  stopSession st
  = mkState false
      (match last (transcription st) with
       | Some line =>
           if String.eqb line sessionEnded then transcription st
           else transcription st ++ [sessionEnded]
       | None => transcription st ++ [sessionEnded]
       end)
      (isConnecting st) (authError st) None (nextStartTimeRef st) [] true
      (created st) (streams st)
      (effects st
         ++ match sessionRef st with Some h => [Close h] | None => [] end
         ++ List.map Stop (sourcesRef st)).
Proof.
  intros H. unfold stopSession. rewrite H. cbv zeta.
  unfold stopAll. rewrite stop_each.
  destruct st as [a t c e s n src g k m l]. cbn in *.
  destruct s; cbn; rewrite <- ?app_assoc; reflexivity.
Qed.

Lemma stopSession_latches st : isStoppingRef (stopSession st) = true.
Proof.
  destruct (isStoppingRef st) eqn:E.
  - now rewrite stopSession_latched.
  - now rewrite stopSession_first.
Qed.

Lemma stopSession_twice st : stopSession (stopSession st) = stopSession st.
Proof. apply stopSession_latched, stopSession_latches. Qed.

Lemma stop_repeated (N : nat) st :
  (1 <= N)%nat -> Nat.iter N stopSession st = stopSession st.
Proof.
  intros HN. destruct N as [|N]; [lia|]. clear HN.
  induction N as [|N IH]; [reflexivity|].
  change (Nat.iter (S (S N)) stopSession st)
    with (stopSession (Nat.iter (S N) stopSession st)).
  rewrite IH. apply stopSession_twice.
Qed.

(** C3, as amended.  [stopSession] called N >= 1 times in a row in a
    session whose stop guard is clear does what one call does: the guard
    latches, the session handle, when one is held, is closed once and
    dropped, every source of the active set is stopped once and the set
    is cleared, and "[Session Ended]" is appended once, unless the log
    already ends with it, in which case the log is left as it is. *)
Theorem stop_is_idempotent (N : nat) (st : State) :
  (1 <= N)%nat ->
  isStoppingRef st = false ->
  let st' := Nat.iter N stopSession st in
  st' = stopSession st
  /\ isStoppingRef st' = true
  /\ (last (transcription st) <> Some sessionEnded ->
      transcription st' = transcription st ++ [sessionEnded])
  /\ (last (transcription st) = Some sessionEnded ->
      transcription st' = transcription st)
  /\ effects st'
     = effects st
         ++ match sessionRef st with Some h => [Close h] | None => [] end
         ++ List.map Stop (sourcesRef st)
  /\ sessionRef st' = None
  /\ sourcesRef st' = [].
Proof.
  intros HN Hg st'. subst st'. rewrite stop_repeated by exact HN.
  split; [reflexivity|]. rewrite stopSession_first by exact Hg. cbn.
  repeat split.
  - intros Hl. destruct (last (transcription st)) as [line|]; [|reflexivity].
    destruct (String.eqb_spec line sessionEnded) as [->|]; [contradiction|reflexivity].
  - intros ->. now rewrite String.eqb_refl.
Qed.

Lemma stop_is_idempotent_witness :
  let st' := Nat.iter 3 stopSession demo_active in
  st' = stopSession demo_active
  /\ isStoppingRef st' = true
  /\ (last (transcription demo_active) <> Some sessionEnded ->
      transcription st' = transcription demo_active ++ [sessionEnded])
  /\ (last (transcription demo_active) = Some sessionEnded ->
      transcription st' = transcription demo_active)
  /\ effects st'
     = effects demo_active
         ++ match sessionRef demo_active with Some h => [Close h] | None => [] end
         ++ List.map Stop (sourcesRef demo_active)
  /\ sessionRef st' = None
  /\ sourcesRef st' = [].
Proof.
  apply (stop_is_idempotent 3 demo_active); [lia | reflexivity].
Defined.

(** C3, as stated, fails in a session that follows one ended before its
    connection opened: the log already ends with the marker, no handle is
    held, and the calls append nothing and close nothing. *)
Lemma stop_after_marker_appends_nothing :
  isStoppingRef demo_retry = false
  /\ transcription demo_retry = [sessionEnded]
  /\ transcription (Nat.iter 2 stopSession demo_retry) = transcription demo_retry
  /\ effects (Nat.iter 2 stopSession demo_retry) = effects demo_retry.
Proof. vm_compute. repeat split. Qed.

(** ** Capture *)

(** C5.  While the stop guard is set, a capture frame changes nothing:
    it is not sent and it is kept nowhere. *)
Theorem frame_dropped_while_stopping
    (session : nat) (inputData : list Q) (st : State) :
  isStoppingRef st = true ->
  onaudioprocess session inputData st = st
  /\ sends (effects (onaudioprocess session inputData st)) = sends (effects st).
Proof.
  intros H. unfold onaudioprocess. rewrite H. cbn. split; reflexivity.
Qed.

Lemma frame_dropped_while_stopping_witness :
  onaudioprocess 7 [1 # 2] (stopSession demo_active) = stopSession demo_active
  /\ sends (effects (onaudioprocess 7 [1 # 2] (stopSession demo_active)))
     = sends (effects (stopSession demo_active)).
Proof.
  apply (frame_dropped_while_stopping 7 [1 # 2] (stopSession demo_active)).
  reflexivity.
Defined.

(** ** The microphone *)

Lemma stopSession_streams st : streams (stopSession st) = streams st.
Proof.
  destruct (isStoppingRef st) eqn:E.
  - now rewrite stopSession_latched.
  - now rewrite stopSession_first.
Qed.

(** C6, as amended.  No teardown path releases the microphone: the
    streams held are the same after [stopSession], after the error
    callback and after the close callback. *)
Theorem microphone_kept_by_teardown (e : Error) (st : State) :
  streams (stopSession st) = streams st
  /\ streams (onerror e st) = streams st
  /\ streams (onclose st) = streams st.
Proof.
  repeat split.
  - apply stopSession_streams.
  - unfold onerror. rewrite stopSession_streams.
    now destruct (isAuthorizationError e).
  - apply stopSession_streams.
Qed.

(** C6, as stated, fails: the stream obtained at session start is still
    held after the session is stopped. *)
Lemma microphone_held_after_stop :
  streams demo_active = 1%nat
  /\ isStoppingRef (stopSession demo_active) = true
  /\ streams (stopSession demo_active) = 1%nat.
Proof. vm_compute. repeat split. Qed.

(** ** Starting *)

Lemma stopSession_acquisitions st :
  acquisitions (effects (stopSession st)) = acquisitions (effects st)
  /\ connections (effects (stopSession st)) = connections (effects st).
Proof.
  destruct (isStoppingRef st) eqn:E.
  - now rewrite stopSession_latched.
  - rewrite stopSession_first by exact E. cbn [effects].
    unfold acquisitions, connections. rewrite !List.filter_app, !length_app.
    assert (Hs : forall f, (forall x, f (Stop x) = false) ->
               List.filter f (List.map Stop (sourcesRef st)) = []).
    { intros f Hf. induction (sourcesRef st) as [|x l IH]; [reflexivity|].
      cbn. now rewrite Hf. }
    rewrite !Hs by reflexivity.
    destruct (sessionRef st); cbn; lia.
Qed.

(** C7, as amended.  Outside IDLE the call button never reaches
    [startSession]: while connecting it is disabled, and otherwise it
    runs [stopSession]; no microphone is requested, no connection is
    opened and no stream is added. *)
Theorem button_starts_only_when_idle (ai : Settled unit) (st : State) :
  lifecycle st <> IDLE ->
  (onClick ai st = st \/ onClick ai st = stopSession st)
  /\ acquisitions (effects (onClick ai st)) = acquisitions (effects st)
  /\ connections (effects (onClick ai st)) = connections (effects st)
  /\ streams (onClick ai st) = streams st.
Proof.
  unfold lifecycle, onClick. intros H.
  destruct (isConnecting st); [auto|].
  destruct (isActive st); [|contradiction].
  split; [now right|].
  destruct (stopSession_acquisitions st) as [-> ->].
  now rewrite stopSession_streams.
Qed.

Lemma button_starts_only_when_idle_witness :
  (onClick demo_ok demo_active = demo_active
   \/ onClick demo_ok demo_active = stopSession demo_active)
  /\ acquisitions (effects (onClick demo_ok demo_active))
     = acquisitions (effects demo_active)
  /\ connections (effects (onClick demo_ok demo_active))
     = connections (effects demo_active)
  /\ streams (onClick demo_ok demo_active) = streams demo_active.
Proof.
  apply (button_starts_only_when_idle demo_ok demo_active). discriminate.
Defined.

(** C7, as stated, fails for [startSession] itself, which tests no
    state: run on an active session it requests the microphone again. *)
Lemma startSession_has_no_guard :
  lifecycle demo_active = ACTIVE
  /\ acquisitions (effects demo_active) = 1%nat
  /\ acquisitions (effects (startSession demo_ok demo_active)) = 2%nat
  /\ streams (startSession_stream demo_ok (startSession demo_ok demo_active))
     = 2%nat
  /\ connections
       (effects (startSession_stream demo_ok (startSession demo_ok demo_active)))
     = 2%nat.
Proof. vm_compute. repeat split. Qed.

(** C10.  [startSession] clears the authorization flag and the stop guard
    before anything else.  Its result does not depend on the values the
    two flags had; the guard is clear when it suspends, whatever happens;
    when [getAI] returns, the microphone is requested with both flags
    clear; and a frame captured once that session is open is sent. *)
Theorem start_clears_guards
    (ai : Settled unit) (a g : bool) (h : nat) (inputData : list Q) (st : State) :
  startSession ai (set_authError a (set_isStoppingRef g st)) = startSession ai st
  /\ isStoppingRef (startSession ai st) = false
  /\ authError (startSession (Resolved tt) st) = false
  /\ effects (startSession (Resolved tt) st) = effects st ++ [GetUserMedia]
  /\ sends (effects (onaudioprocess h inputData
                       (onopen (startSession_session (Resolved h)
                                  (startSession_stream (Resolved tt)
                                     (startSession (Resolved tt) st))))))
     = sends (effects st) ++ [(h, encodeFrame inputData)].
Proof.
  repeat split.
  - unfold startSession, startSession_catch. destruct ai as [u|err].
    + reflexivity.
    + now destruct (isAuthorizationError err).
  - unfold onaudioprocess. cbn.
    unfold sends. rewrite !flat_map_app. cbn. now rewrite !app_nil_r.
Qed.

(** ** Authorization failures *)

Lemma stopSession_authError st : authError (stopSession st) = authError st.
Proof.
  destruct (isStoppingRef st) eqn:E.
  - now rewrite stopSession_latched.
  - now rewrite stopSession_first.
Qed.

(** C8, as amended.  An authorization failure reported to the error
    callback sets the flag and runs [stopSession]; one that rejects the
    microphone request or the connection inside [startSession] sets the
    flag and clears the connecting indicator, and changes nothing else. *)
Theorem authorization_failure_handling (e : Error) (st : State) :
  isAuthorizationError e = true ->
  onerror e st = stopSession (set_authError true st)
  /\ authError (onerror e st) = true
  /\ isStoppingRef (onerror e st) = true
  /\ startSession_session (Rejected e) st
     = set_isConnecting false (set_authError true st)
  /\ startSession_stream (Rejected e) st
     = set_isConnecting false (set_authError true st).
Proof.
  intros H. unfold onerror, startSession_session, startSession_stream,
    startSession_catch. rewrite H. repeat split.
  - now rewrite stopSession_authError.
  - apply stopSession_latches.
Qed.

Lemma authorization_failure_handling_witness :
  onerror demo_denied demo_active = stopSession (set_authError true demo_active)
  /\ authError (onerror demo_denied demo_active) = true
  /\ isStoppingRef (onerror demo_denied demo_active) = true
  /\ startSession_session (Rejected demo_denied) demo_active
     = set_isConnecting false (set_authError true demo_active)
  /\ startSession_stream (Rejected demo_denied) demo_active
     = set_isConnecting false (set_authError true demo_active).
Proof.
  apply (authorization_failure_handling demo_denied demo_active). reflexivity.
Defined.

(** C8, as stated, fails on the opening path: the failure is flagged, but
    the stop guard stays clear and the log and the calls made are
    unchanged, so [stopSession] has not run. *)
Lemma open_failure_does_not_stop :
  isAuthorizationError demo_denied = true
  /\ authError (startSession_session (Rejected demo_denied) demo_connecting) = true
  /\ isStoppingRef (startSession_session (Rejected demo_denied) demo_connecting)
     = false
  /\ transcription (startSession_session (Rejected demo_denied) demo_connecting)
     = transcription demo_connecting
  /\ startSession_session (Rejected demo_denied) demo_connecting
     <> stopSession (set_authError true demo_connecting).
Proof. vm_compute. repeat split. discriminate. Qed.

(** ** Inbound audio *)

Lemma duration_nonneg b : 0 <= duration b.
Proof. unfold duration, Qle. cbn. lia. Qed.

Lemma payload_duration_nonneg p : 0 <= payload_duration p.
Proof.
  unfold payload_duration. destruct (decodeToAudioBuffer p).
  - apply duration_nonneg.
  - apply Qle_refl.
Qed.

(** One playable chunk through the handler. *)
Lemma onmessage_audio (t : Q) (p : list ascii) (st : State) :
  isStoppingRef st = false ->
  playable p ->
  onmessage t (audioMessage p) st
  = (mkState (isActive st) (transcription st) (isConnecting st) (authError st)
       (sessionRef st) (Qmax (nextStartTimeRef st) t + payload_duration p)
       (set_add (created st) (sourcesRef st)) false (S (created st))
       (streams st)
       (effects st
          ++ [Start (created st) (Qmax (nextStartTimeRef st) t)
                (payload_duration p)]),
     Fulfilled).
Proof.
  intros Hg [Hne [b Hb]]. unfold onmessage, audioMessage. rewrite Hg.
  cbn [outputTranscription inlineData interrupted].
  destruct p as [|c s]; [contradiction|].
  unfold schedule, payload_duration. rewrite Hb.
  destruct st. cbn in *. now subst.
Qed.

(** C9, as amended.  A payload that does not decode makes the handler's
    promise reject: nothing in the handler catches the error.  The chunk
    is not scheduled, the session is not stopped, and a playable chunk
    that follows is scheduled as usual. *)
Theorem undecodable_audio_rejects
    (now : Q) (m : Message) (c : ascii) (s : list ascii) (st : State) :
  isStoppingRef st = false ->
  inlineData m = Data (c :: s) ->
  decodeToAudioBuffer (c :: s) = None ->
  let st' := fst (onmessage now m st) in
  snd (onmessage now m st) = Thrown
  /\ effects st' = effects st
  /\ sourcesRef st' = sourcesRef st
  /\ isStoppingRef st' = false
  /\ isActive st' = isActive st
  /\ sessionRef st' = sessionRef st
  /\ nextStartTimeRef st' = Qmax (nextStartTimeRef st) now
  /\ forall t p,
       playable p ->
       snd (onmessage t (audioMessage p) st') = Fulfilled
       /\ scheduled (effects (fst (onmessage t (audioMessage p) st')))
          = scheduled (effects st')
              ++ [(Qmax (nextStartTimeRef st') t, payload_duration p)].
Proof.
  intros Hg Hm Hd st'.
  assert (E : onmessage now m st
              = (set_nextStartTimeRef (Qmax (nextStartTimeRef st) now)
                   match outputTranscription m with
                   | Some text =>
                       set_transcription
                         (transcription st ++ [("AI: " ++ text)%string]) st
                   | None => st
                   end, Thrown)).
  { unfold onmessage. rewrite Hg, Hm. unfold schedule. rewrite Hd.
    now destruct (outputTranscription m). }
  subst st'. rewrite E. cbn [fst snd].
  set (st1 := match outputTranscription m with Some _ => _ | None => _ end).
  assert (H1 : effects st1 = effects st /\ sourcesRef st1 = sourcesRef st
               /\ isStoppingRef st1 = false /\ isActive st1 = isActive st
               /\ sessionRef st1 = sessionRef st
               /\ nextStartTimeRef st1 = nextStartTimeRef st).
  { unfold st1. destruct (outputTranscription m); cbn; repeat split; assumption || reflexivity. }
  destruct H1 as (He & Hs & Hg1 & Ha & Hr & Hn).
  cbn [set_nextStartTimeRef effects sourcesRef isStoppingRef isActive
       sessionRef nextStartTimeRef].
  repeat split; try assumption.
  - rewrite onmessage_audio by (cbn; assumption). reflexivity.
  - rewrite onmessage_audio by (cbn; assumption). cbn [fst effects nextStartTimeRef].
    unfold scheduled. rewrite flat_map_app. cbn. reflexivity.
Qed.

Lemma undecodable_audio_rejects_witness :
  let m := mkMessage (Some "hi"%string) (Data demo_odd) true in
  let st' := fst (onmessage 3 m demo_active) in
  snd (onmessage 3 m demo_active) = Thrown
  /\ effects st' = effects demo_active
  /\ sourcesRef st' = sourcesRef demo_active
  /\ isStoppingRef st' = false
  /\ isActive st' = isActive demo_active
  /\ sessionRef st' = sessionRef demo_active
  /\ nextStartTimeRef st' = Qmax (nextStartTimeRef demo_active) 3
  /\ forall t p,
       playable p ->
       snd (onmessage t (audioMessage p) st') = Fulfilled
       /\ scheduled (effects (fst (onmessage t (audioMessage p) st')))
          = scheduled (effects st')
              ++ [(Qmax (nextStartTimeRef st') t, payload_duration p)].
Proof.
  apply (undecodable_audio_rejects 3
           (mkMessage (Some "hi"%string) (Data demo_odd) true)
           "A"%char ["A"%char] demo_active); reflexivity.
Defined.

(** C9, as stated, fails: a payload of one byte, which is no whole 16-bit
    sample, makes the handler end in the error thrown by the decoding. *)
Lemma undecodable_audio_escapes :
  decode demo_odd = Some [0%Z]
  /\ decodeToAudioBuffer demo_odd = None
  /\ snd (onmessage 0 (audioMessage demo_odd) demo_active) = Thrown.
Proof. vm_compute. repeat split. Qed.

(** ** Interruption *)

Lemma interrupt_spec st :
  interrupt st
  = mkState (isActive st) (transcription st) (isConnecting st) (authError st)
      (sessionRef st) 0 [] (isStoppingRef st) (created st) (streams st)
      (effects st ++ List.map Stop (sourcesRef st)).
Proof. unfold interrupt, stopAll. rewrite stop_each. reflexivity. Qed.

Lemma set_add_keeps x y s : In y s -> In y (set_add x s).
Proof.
  unfold set_add. destruct (existsb _ s); [auto|].
  intros H. apply in_or_app. now left.
Qed.

(** An interruption that is processed runs the interruption block on a
    state that extends the one the message met. *)
Lemma onmessage_interrupted (now : Q) (m : Message) (st : State) :
  isStoppingRef st = false ->
  interrupted m = true ->
  decodable m ->
  exists mid pre,
    onmessage now m st = (interrupt mid, Fulfilled)
    /\ effects mid = effects st ++ pre
    /\ isStoppingRef mid = false
    /\ forall x, In x (sourcesRef st) -> In x (sourcesRef mid).
Proof.
  intros Hg Hi Hd. unfold onmessage. rewrite Hg, Hi.
  set (st1 := match outputTranscription m with Some _ => _ | None => _ end).
  assert (H1 : effects st1 = effects st /\ sourcesRef st1 = sourcesRef st
               /\ isStoppingRef st1 = false).
  { unfold st1. destruct (outputTranscription m); cbn; auto. }
  destruct H1 as (He & Hs & Hg1).
  unfold decodable in Hd.
  destruct (inlineData m) as [| |[|c s]].
  - contradiction.
  - exists st1, []. rewrite app_nil_r, Hs. auto.
  - exists st1, []. rewrite app_nil_r, Hs. auto.
  - destruct Hd as [b Hb]. unfold schedule. rewrite Hb.
    eexists _, _. split; [reflexivity|]. cbn. rewrite He, Hs, Hg1.
    split; [reflexivity|]. split; [reflexivity|].
    intros x. apply set_add_keeps.
Qed.

(** C2, as amended.  An interruption that the handler reaches, the stop
    guard being clear and the audio part of the same message read and
    decoded without error, stops every source of the active set, empties
    the set and puts the cursor at 0; the chunk that comes next starts at
    the device time of its arrival. *)
Theorem interruption_resets_scheduler (now : Q) (m : Message) (st : State) :
  isStoppingRef st = false ->
  interrupted m = true ->
  decodable m ->
  let st' := fst (onmessage now m st) in
  snd (onmessage now m st) = Fulfilled
  /\ (forall source,
        In source (sourcesRef st) ->
        In (Stop source) (drop (length (effects st)) (effects st')))
  /\ sourcesRef st' = []
  /\ nextStartTimeRef st' = 0
  /\ forall t p,
       0 <= t -> playable p ->
       exists start,
         scheduled (effects (fst (onmessage t (audioMessage p) st')))
         = scheduled (effects st') ++ [(start, payload_duration p)]
         /\ start == t.
Proof.
  intros Hg Hi Hd st'.
  destruct (onmessage_interrupted now m st Hg Hi Hd)
    as (mid & pre & E & He & Hgm & Hin).
  subst st'. rewrite E, interrupt_spec. cbn [fst snd effects sourcesRef nextStartTimeRef].
  repeat split.
  - intros source Hs. rewrite He, <- app_assoc, drop_app_length.
    apply in_or_app. right. apply in_map, Hin, Hs.
  - intros t p Ht Hp. rewrite onmessage_audio by (cbn; assumption).
    cbn [fst effects nextStartTimeRef]. eexists. split.
    + unfold scheduled at 1. rewrite flat_map_app. cbn [flat_map app]. reflexivity.
    + apply Q.max_r, Ht.
Qed.

Lemma interruption_resets_scheduler_witness :
  let m := mkMessage None NoData true in
  let st' := fst (onmessage 1 m demo_playing) in
  snd (onmessage 1 m demo_playing) = Fulfilled
  /\ (forall source,
        In source (sourcesRef demo_playing) ->
        In (Stop source) (drop (length (effects demo_playing)) (effects st')))
  /\ sourcesRef st' = []
  /\ nextStartTimeRef st' = 0
  /\ forall t p,
       0 <= t -> playable p ->
       exists start,
         scheduled (effects (fst (onmessage t (audioMessage p) st')))
         = scheduled (effects st') ++ [(start, payload_duration p)]
         /\ start == t.
Proof.
  apply (interruption_resets_scheduler 1 (mkMessage None NoData true) demo_playing);
    [reflexivity | reflexivity | exact I].
Defined.

(** C2, as stated, fails when the message that carries the interruption
    makes the handler throw before it reaches the interruption block: a
    payload that does not decode, or a model turn without parts.  No
    source is stopped, the active set is kept and the cursor is not put
    at 0. *)
Lemma interruption_lost_on_throw :
  sourcesRef demo_playing = [0%nat; 1%nat]
  /\ snd (onmessage 1 (mkMessage None (Data demo_odd) true) demo_playing) = Thrown
  /\ effects (fst (onmessage 1 (mkMessage None (Data demo_odd) true) demo_playing))
     = effects demo_playing
  /\ sourcesRef (fst (onmessage 1 (mkMessage None (Data demo_odd) true) demo_playing))
     = [0%nat; 1%nat]
  /\ ~ nextStartTimeRef
         (fst (onmessage 1 (mkMessage None (Data demo_odd) true) demo_playing)) == 0
  /\ snd (onmessage 1 (mkMessage None NoParts true) demo_playing) = Thrown
  /\ effects (fst (onmessage 1 (mkMessage None NoParts true) demo_playing))
     = effects demo_playing
  /\ sourcesRef (fst (onmessage 1 (mkMessage None NoParts true) demo_playing))
     = [0%nat; 1%nat]
  /\ ~ nextStartTimeRef
         (fst (onmessage 1 (mkMessage None NoParts true) demo_playing)) == 0.
Proof. vm_compute. repeat split; discriminate. Qed.

(** ** The playback timeline *)

Lemma Qsum_cons x l : Qsum (x :: l) = x + Qsum l.
Proof. reflexivity. Qed.

Lemma timeline_length cursor chunks :
  length (timeline cursor chunks) = length chunks.
Proof.
  revert cursor. induction chunks as [|[t d] r IH]; intros cursor;
    [reflexivity|]. cbn. now rewrite IH.
Qed.

Lemma timeline_durations cursor chunks :
  List.map snd (timeline cursor chunks) = List.map snd chunks.
Proof.
  revert cursor. induction chunks as [|[t d] r IH]; intros cursor;
    [reflexivity|]. cbn. now rewrite IH.
Qed.

(** A source starts no earlier than the cursor plus the durations of the
    sources scheduled before it. *)
Lemma timeline_after cursor chunks (i : nat) (a : Q * Q) :
  Forall (fun c => 0 <= snd c) chunks ->
  timeline cursor chunks !! i = Some a ->
  cursor + Qsum (List.map snd (take i (timeline cursor chunks))) <= fst a.
Proof.
  intros Hd. revert cursor i.
  induction Hd as [|[t d] r Hd0 _ IH]; intros cursor i Ha; [discriminate|].
  cbn [timeline] in *. destruct i as [|k].
  - injection Ha as <-. cbn [take List.map fst]. unfold Qsum. cbn [fold_right].
    pose proof (Q.le_max_l cursor t). lra.
  - cbn [lookup list_lookup] in Ha. specialize (IH _ _ Ha).
    cbn [take List.map snd]. rewrite Qsum_cons.
    pose proof (Q.le_max_l cursor t). cbn [snd] in Hd0. lra.
Qed.

Lemma timeline_from cursor chunks (i : nat) (a : Q * Q) :
  Forall (fun c => 0 <= snd c) chunks ->
  timeline cursor chunks !! i = Some a ->
  cursor <= fst a.
Proof.
  intros Hd. revert cursor i.
  induction Hd as [|[t d] r Hd0 _ IH]; intros cursor i Ha; [discriminate|].
  cbn [timeline] in *. pose proof (Q.le_max_l cursor t). destruct i as [|k].
  - injection Ha as <-. assumption.
  - cbn [lookup list_lookup] in Ha. specialize (IH _ _ Ha).
    cbn [snd] in Hd0. lra.
Qed.

(** On time, a source starts exactly there. *)
Lemma timeline_exact cursor chunks (i : nat) (a : Q * Q) :
  on_time cursor chunks ->
  timeline cursor chunks !! i = Some a ->
  fst a == cursor + Qsum (List.map snd (take i (timeline cursor chunks))).
Proof.
  revert cursor i.
  induction chunks as [|[t d] r IH]; intros cursor i Ht Ha; [discriminate|].
  cbn [timeline on_time] in *. destruct Ht as [Ht Hr].
  pose proof (Q.max_l _ _ Ht) as Hm. destruct i as [|k].
  - injection Ha as <-. cbn [take List.map fst]. unfold Qsum. cbn [fold_right]. lra.
  - cbn [lookup list_lookup] in Ha. specialize (IH _ _ Hr Ha).
    cbn [take List.map snd]. rewrite Qsum_cons. lra.
Qed.

(** A source ends before any later one starts. *)
Lemma timeline_no_overlap cursor chunks (i j : nat) (a b : Q * Q) :
  Forall (fun c => 0 <= snd c) chunks ->
  (i < j)%nat ->
  timeline cursor chunks !! i = Some a ->
  timeline cursor chunks !! j = Some b ->
  fst a + snd a <= fst b.
Proof.
  intros Hd. revert cursor i j.
  induction Hd as [|[t d] r Hd0 Hr IH]; intros cursor i j Hij Ha Hb;
    [discriminate|].
  cbn [timeline] in *. destruct j as [|j]; [lia|].
  cbn [lookup list_lookup] in Hb. destruct i as [|i].
  - injection Ha as <-. cbn [fst snd].
    exact (timeline_from _ _ _ _ Hr Hb).
  - cbn [lookup list_lookup] in Ha.
    apply (IH (Qmax cursor t + d) i j); [lia|assumption..].
Qed.

Lemma arrivals_nonneg chunks : Forall (fun c => 0 <= snd c) (arrivals chunks).
Proof.
  unfold arrivals. induction chunks as [|c r IH]; cbn; constructor;
    [apply payload_duration_nonneg | exact IH].
Qed.

(** The sources the handler schedules are those of the timeline. *)
Lemma deliver_scheduled chunks st :
  isStoppingRef st = false ->
  Forall (fun c => playable (snd c)) chunks ->
  scheduled (effects (deliver chunks st))
  = scheduled (effects st) ++ timeline (nextStartTimeRef st) (arrivals chunks).
Proof.
  intros Hg Hp. revert st Hg.
  induction Hp as [|[t p] r Hp0 _ IH]; intros st Hg.
  - cbn. now rewrite app_nil_r.
  - cbn [deliver arrivals List.map timeline fst snd] in *.
    rewrite onmessage_audio by assumption. cbn [fst].
    rewrite IH by reflexivity. cbn [effects nextStartTimeRef].
    unfold scheduled. rewrite flat_map_app. cbn [flat_map app].
    now rewrite <- app_assoc.
Qed.

(** C1, as amended.  Chunks delivered with no interruption are scheduled
    one source each, every source starting at the later of the cursor and
    the device time and moving the cursor to its end.  No source starts
    before the one before it has ended.  A source starts no earlier than
    the first start plus the durations of the sources before it, and
    exactly there when the chunks after the first arrive on time. *)
Theorem playback_timeline (chunks : list (Q * list ascii)) (st : State) :
  isStoppingRef st = false ->
  Forall (fun c => playable (snd c)) chunks ->
  let srcs := timeline (nextStartTimeRef st) (arrivals chunks) in
  scheduled (effects (deliver chunks st)) = scheduled (effects st) ++ srcs
  /\ length srcs = length chunks
  /\ (forall (i j : nat) (a b : Q * Q),
        (i < j)%nat -> srcs !! i = Some a -> srcs !! j = Some b ->
        fst a + snd a <= fst b)
  /\ (forall (i : nat) (first a : Q * Q),
        srcs !! 0%nat = Some first -> srcs !! i = Some a ->
        fst first + Qsum (List.map snd (take i srcs)) <= fst a
        /\ (on_time (fst first + snd first) (tail (arrivals chunks)) ->
            fst a == fst first + Qsum (List.map snd (take i srcs)))).
Proof.
  intros Hg Hp srcs. split; [now apply deliver_scheduled|].
  split; [unfold srcs, arrivals; now rewrite timeline_length, length_map|].
  split.
  - intros i j a b. apply timeline_no_overlap, arrivals_nonneg.
  - intros i first a H0 Ha. subst srcs.
    pose proof (arrivals_nonneg chunks) as Hn.
    destruct (arrivals chunks) as [|[t d] r]; [discriminate|].
    cbn [timeline] in *. injection H0 as <-. cbn [fst snd tail].
    inversion_clear Hn as [|? ? _ Hr].
    destruct i as [|k].
    + injection Ha as <-. cbn [take List.map fst]. unfold Qsum. cbn [fold_right].
      split; [|intros _]; lra.
    + cbn [lookup list_lookup] in Ha. cbn [take List.map snd].
      rewrite Qsum_cons. split.
      * pose proof (timeline_after _ _ _ _ Hr Ha). lra.
      * intros Hon. pose proof (timeline_exact _ _ _ _ Hon Ha). lra.
Qed.

Lemma playback_timeline_witness :
  let chunks := [(0, demo_chunk1); (0, demo_chunk3); (0, demo_chunk1)] in
  let srcs := timeline (nextStartTimeRef demo_active) (arrivals chunks) in
  scheduled (effects (deliver chunks demo_active))
  = scheduled (effects demo_active) ++ srcs
  /\ length srcs = length chunks
  /\ (forall (i j : nat) (a b : Q * Q),
        (i < j)%nat -> srcs !! i = Some a -> srcs !! j = Some b ->
        fst a + snd a <= fst b)
  /\ (forall (i : nat) (first a : Q * Q),
        srcs !! 0%nat = Some first -> srcs !! i = Some a ->
        fst first + Qsum (List.map snd (take i srcs)) <= fst a
        /\ (on_time (fst first + snd first) (tail (arrivals chunks)) ->
            fst a == fst first + Qsum (List.map snd (take i srcs)))).
Proof.
  apply (playback_timeline
           [(0, demo_chunk1); (0, demo_chunk3); (0, demo_chunk1)] demo_active).
  - reflexivity.
  - repeat constructor; try discriminate; eexists; vm_compute; reflexivity.
Defined.

(** C1, as stated, fails when a chunk arrives after the device clock has
    passed the cursor: the second source starts at the device time 5, not
    at the first start plus the first duration. *)
Lemma late_chunk_starts_at_device_time :
  scheduled (effects (deliver [(0, demo_chunk1); (5, demo_chunk1)] demo_active))
  = [(0, 1 # 24000); (5, 1 # 24000)]
  /\ ~ 5 == 0 + (1 # 24000).
Proof. split; [vm_compute; reflexivity | discriminate]. Qed.

(** * Further properties *)

Import Base64.

Local Open Scope Z_scope.

(** ** More on the codec *)

Lemma decode_encode_inj a b :
  Forall is_byte a -> Forall is_byte b -> encode a = encode b -> a = b.
Proof.
  intros Ha Hb E. apply (f_equal decode) in E.
  rewrite !decode_encode in E by assumption. now injection E.
Qed.

(** X1.  [decode] inverts [encode] on every byte array, so [encode] is
    one-to-one. *)
Theorem base64_roundtrip (a b : list Z) :
  Forall is_byte a -> Forall is_byte b ->
  decode (encode a) = Some a /\ (encode a = encode b -> a = b).
Proof.
  intros Ha Hb. split.
  - now apply atob_btoa.
  - now apply decode_encode_inj.
Qed.

Lemma base64_roundtrip_witness :
  decode (encode [77; 97; 110; 255]) = Some [77; 97; 110; 255]
  /\ (encode [77; 97; 110; 255] = encode [0] -> [77; 97; 110; 255] = [0]).
Proof.
  apply (base64_roundtrip [77; 97; 110; 255] [0]);
    repeat constructor; unfold is_byte; lia.
Defined.

Lemma btoa_length bs :
  length (btoa bs) = (4 * ((length bs + 2) / 3))%nat.
Proof.
  unfold btoa. rewrite length_app, length_map.
  induction bs as [|a|a b|a b c l IH] using list_ind3;
    [reflexivity | reflexivity | reflexivity |].
  cbn [sextets length]. unfold padding in *.
  replace (S (S (S (length l)))) with (length l + 1 * 3)%nat by lia.
  rewrite Nat.Div0.mod_add.
  replace (length l + 1 * 3 + 2)%nat with (length l + 2 + 1 * 3)%nat by lia.
  rewrite Nat.div_add by lia. lia.
Qed.

Lemma char_of_alphabet v : In (char_of v) alphabet \/ char_of v = pad.
Proof.
  unfold char_of.
  destruct (nth_in_or_default (Z.to_nat v) alphabet pad); [now left | now right].
Qed.

Lemma alphabet_plain c :
  In c alphabet \/ c = pad -> is_whitespace c = false /\ c <> comma.
Proof.
  intros [H| ->]; [|split; [reflexivity|discriminate]].
  assert (Hall : forallb (fun c => negb (is_whitespace c) && negb (Ascii.eqb c comma))
                   alphabet = true) by (vm_compute; reflexivity).
  rewrite forallb_forall in Hall. specialize (Hall c H).
  apply andb_true_iff in Hall as [H1 H2].
  apply negb_true_iff in H1, H2. split; [exact H1|].
  intros ->. now rewrite Ascii.eqb_refl in H2.
Qed.

Lemma btoa_plain bs :
  Forall (fun c => (In c alphabet \/ c = pad)
                   /\ is_whitespace c = false /\ c <> comma)
    (btoa bs).
Proof.
  unfold btoa. rewrite Forall_app. split.
  - induction (sextets bs) as [|v vs IH]; cbn [List.map]; constructor.
    + split; [apply char_of_alphabet | apply alphabet_plain, char_of_alphabet].
    + exact IH.
  - assert (Hp : (In pad alphabet \/ pad = pad)
                  /\ is_whitespace pad = false /\ pad <> comma).
    { split; [now right | split; [reflexivity | discriminate]]. }
    unfold padding. destruct (length bs mod 3)%nat as [|[|[|k]]];
      repeat (apply List.Forall_cons; [exact Hp|]); apply List.Forall_nil.
Qed.

(** X2.  The text [encode] returns has four characters for every three
    bytes, rounded up, all of them from the base64 alphabet or the
    padding sign: none is white space and none is a comma. *)
Theorem encode_shape (bytes : list Z) :
  length (encode bytes) = (4 * ((length bytes + 2) / 3))%nat
  /\ Forall (fun c => (In c alphabet \/ c = pad)
                      /\ is_whitespace c = false /\ c <> comma)
       (encode bytes).
Proof. split; [apply btoa_length | apply btoa_plain]. Qed.

Lemma values_foreign (s : list ascii) c :
  In c s -> value_of c = None -> values s = None.
Proof.
  intros Hin Hc. induction s as [|x r IH]; [contradiction|].
  cbn [values]. destruct Hin as [->|Hin].
  - now rewrite Hc.
  - rewrite (IH Hin). now destruct (value_of x).
Qed.

Lemma strip_padding_keeps (s : list ascii) c :
  In c s -> c <> pad -> In c (strip_padding s).
Proof.
  intros Hin Hc. unfold strip_padding.
  destruct (rev s) as [|p [|q r]] eqn:E; [exact Hin | exact Hin |].
  assert (Hs : s = rev r ++ [q; p]).
  { rewrite <- (rev_involutive s), E. cbn [rev]. now rewrite <- app_assoc. }
  destruct (Ascii.eqb_spec p pad) as [->|]; [|exact Hin].
  rewrite Hs in Hin. apply in_app_or in Hin.
  destruct (Ascii.eqb_spec q pad) as [->|Hq].
  - destruct Hin as [Hin|[<-|[<-|[]]]]; [exact Hin | contradiction..].
  - cbn [rev]. apply in_or_app.
    destruct Hin as [Hin|[<-|[<-|[]]]]; [now left | right; now left | contradiction].
Qed.

(** X3.  [decode] throws on any text holding a character that is neither
    white space, nor of the base64 alphabet, nor the padding sign. *)
Theorem decode_rejects_foreign (base64 : list ascii) (c : ascii) :
  In c base64 ->
  is_whitespace c = false -> value_of c = None -> c <> pad ->
  decode base64 = None.
Proof.
  intros Hin Hw Hv Hp. unfold decode, atob. cbv zeta.
  set (s1 := List.filter _ base64).
  assert (H1 : In c s1).
  { unfold s1. apply List.filter_In. split; [exact Hin | now rewrite Hw]. }
  set (s2 := if (length s1 mod 4 =? 0)%nat then strip_padding s1 else s1).
  assert (H2 : In c s2).
  { unfold s2. destruct (length s1 mod 4 =? 0)%nat;
      [now apply strip_padding_keeps | exact H1]. }
  destruct (length s2 mod 4 =? 1)%nat; [reflexivity|].
  now rewrite (values_foreign s2 c H2 Hv).
Qed.

Lemma decode_rejects_foreign_witness :
  decode (list_ascii_of_string "AA-A") = None.
Proof.
  apply (decode_rejects_foreign (list_ascii_of_string "AA-A") "-"%char).
  - cbn. auto.
  - reflexivity.
  - reflexivity.
  - discriminate.
Defined.

(** *** [decodeAudioData] *)

Lemma list_ind2 {A} (P : list A -> Prop) :
  P [] -> (forall a, P [a]) -> (forall a b l, P l -> P (a :: b :: l)) ->
  forall l, P l.
Proof.
  intros H0 H1 H2. fix IH 1. intros [|a [|b l]];
    [exact H0 | exact (H1 a) | exact (H2 a b l (IH l))].
Qed.

Lemma bytes_int16_spec bs :
  match bytes_int16 bs with
  | Some l => Nat.even (length bs) = true
              /\ length l = (length bs / 2)%nat /\ Forall is_int16 l
  | None => Nat.even (length bs) = false
  end.
Proof.
  induction bs as [|lo|lo hi r IH] using list_ind2.
  - cbn. repeat split. constructor.
  - reflexivity.
  - cbn [bytes_int16].
    destruct (bytes_int16 r) as [l|].
    + destruct IH as (He & Hl & Hf). repeat split.
      * exact He.
      * cbn [length]. rewrite Hl.
        replace (S (S (length r))) with (length r + 1 * 2)%nat by lia.
        rewrite Nat.div_add by lia. lia.
      * constructor; [apply wrap16_range | exact Hf].
    + exact IH.
Qed.

Lemma createBuffer_accepts_spec (numChannels frameCount : nat) (rate : Z) :
  createBuffer_accepts numChannels frameCount rate = true
  <-> (1 <= numChannels <= 32)%nat /\ (1 <= frameCount)%nat
      /\ 3000 <= rate <= 768000.
Proof.
  unfold createBuffer_accepts. rewrite !andb_true_iff, !Nat.leb_le, !Z.leb_le.
  tauto.
Qed.

(** X4.  [decodeAudioData] throws exactly when the byte length is odd,
    when the data hold less than one frame, or when [createBuffer]
    refuses the channel count (none, or more than 32) or the rate (below
    3000 or above 768000). *)
Theorem decodeAudioData_throws_iff (data : list Z) (rate : Z) (numChannels : nat) :
  decodeAudioData data rate numChannels = None
  <-> Nat.even (length data) = false
      \/ numChannels = 0%nat
      \/ (32 < numChannels)%nat
      \/ (length data / 2 / numChannels = 0)%nat
      \/ rate < 3000
      \/ 768000 < rate.
Proof.
  unfold decodeAudioData. pose proof (bytes_int16_spec data) as H.
  destruct (bytes_int16 data) as [l|].
  - destruct H as (He & Hl & _). cbv zeta. rewrite Hl.
    pose proof (createBuffer_accepts_spec numChannels
                  (length data / 2 / numChannels) rate) as Hspec.
    destruct (createBuffer_accepts numChannels (length data / 2 / numChannels) rate);
      cbn [negb].
    + split; [discriminate|]. destruct Hspec as [Hspec _].
      specialize (Hspec eq_refl). intros [H|H]; [congruence | lia].
    + split; [|reflexivity]. intros _. right.
      destruct (Nat.eq_dec numChannels 0%nat) as [?|?]; [tauto|].
      destruct (le_lt_dec numChannels 32%nat) as [?|?]; [|tauto].
      destruct (Nat.eq_dec (length data / 2 / numChannels)%nat 0%nat) as [?|?];
        [tauto|].
      destruct (Z_lt_le_dec rate 3000) as [?|?]; [tauto|].
      destruct (Z_lt_le_dec 768000 rate) as [?|?]; [tauto|].
      assert (Hno : false = true) by (apply Hspec; repeat split; lia).
      discriminate Hno.
  - split; auto.
Qed.

Lemma sample_range v : is_int16 v -> (-1 <= Qmake v 32768 /\ Qmake v 32768 < 1)%Q.
Proof. unfold is_int16, Qle, Qlt. cbn. lia. Qed.

(** X5.  A buffer [decodeAudioData] returns has the channel count and the
    rate asked for, one frame for every whole group of two bytes per
    channel, that many samples in each channel, and every sample in
    [-1, 1). *)
Theorem decodeAudioData_buffer
    (data : list Z) (rate : Z) (numChannels : nat) (b : AudioBuffer) :
  decodeAudioData data rate numChannels = Some b ->
  numberOfChannels b = numChannels
  /\ sampleRate b = rate
  /\ frames b = (length data / 2 / numChannels)%nat
  /\ length (channels b) = numChannels
  /\ Forall (fun ch => length ch = frames b
                       /\ Forall (fun x => -1 <= x /\ x < 1)%Q ch)
       (channels b).
Proof.
  unfold decodeAudioData. pose proof (bytes_int16_spec data) as H.
  destruct (bytes_int16 data) as [l|]; [|discriminate].
  destruct H as (_ & Hl & Hf). cbv zeta.
  destruct (negb _); [discriminate|]. intros [= <-].
  cbn [numberOfChannels sampleRate frames channels]. rewrite Hl.
  repeat split.
  - now rewrite length_map, length_seq.
  - apply List.Forall_map, List.Forall_forall. intros ch _. split.
    + now rewrite length_map, length_seq.
    + apply List.Forall_map, List.Forall_forall. intros i _.
      apply sample_range.
      destruct (nth_in_or_default (i * numChannels + ch) l 0) as [Hin|E].
      * rewrite List.Forall_forall in Hf. now apply Hf.
      * rewrite E. unfold is_int16. lia.
Qed.

Lemma decodeAudioData_buffer_witness :
  let b := mkAudioBuffer 2 1 24000 [[0 # 32768]; [-32768 # 32768]]%Q in
  numberOfChannels b = 2%nat
  /\ sampleRate b = 24000
  /\ frames b = (length [0; 0; 0; 128; 7; 7] / 2 / 2)%nat
  /\ length (channels b) = 2%nat
  /\ Forall (fun ch => length ch = frames b
                       /\ Forall (fun x => -1 <= x /\ x < 1)%Q ch)
       (channels b).
Proof.
  apply (decodeAudioData_buffer [0; 0; 0; 128; 7; 7] 24000 2). reflexivity.
Defined.

(** *** The capture side, out of range *)

(** X6.  Whatever the values of its samples, a capture frame that is not
    empty encodes to a payload the message handler would schedule: it
    decodes to one channel with one frame per sample, lasting
    (number of samples) / 24000 seconds. *)
Theorem capture_frame_playable (samples : list Q) :
  samples <> [] ->
  playable (encodeFrame samples)
  /\ (exists b, decodeToAudioBuffer (encodeFrame samples) = Some b
                /\ numberOfChannels b = 1%nat
                /\ frames b = length samples)
  /\ (payload_duration (encodeFrame samples)
      == Z.of_nat (length samples) # 24000)%Q.
Proof.
  intros Hne. pose proof (decodeToAudioBuffer_encodeFrame samples Hne) as E.
  split; [|split].
  - split; [|eauto].
    destruct samples as [|x l]; [contradiction|].
    intros H. apply (f_equal (@length ascii)) in H.
    unfold encodeFrame, encode in H. rewrite btoa_length in H. cbn [List.map int16_bytes length] in H.
    replace (S (S (length (int16_bytes (List.map (fun x => ToInt16 (x * 32768)) l)))) + 2)%nat
      with (length (int16_bytes (List.map (fun x => ToInt16 (x * 32768)) l)) + 1 + 1 * 3)%nat
      in H by lia.
    rewrite Nat.div_add in H by lia. cbn [length] in H. lia.
  - eexists. split; [exact E|]. split; reflexivity.
  - unfold payload_duration. rewrite E. reflexivity.
Qed.

Lemma capture_frame_playable_witness :
  playable (encodeFrame [3; -7 # 2]%Q)
  /\ (exists b, decodeToAudioBuffer (encodeFrame [3; -7 # 2]%Q) = Some b
                /\ numberOfChannels b = 1%nat
                /\ frames b = length [3; -7 # 2]%Q)
  /\ (payload_duration (encodeFrame [3; -7 # 2]%Q)
      == Z.of_nat (length [3; -7 # 2]%Q) # 24000)%Q.
Proof. apply (capture_frame_playable [3; -7 # 2]%Q). discriminate. Defined.

Lemma wrap16_period n : wrap16 (n + 65536) = wrap16 n.
Proof. unfold wrap16. dlia. Qed.

Lemma ToInt16_alias (x : Q) :
  (0 <= x)%Q -> ToInt16 ((x + 2) * 32768) = ToInt16 (x * 32768).
Proof.
  destruct x as [n d]. unfold Qle. cbn. intros Hn.
  unfold ToInt16, trunc. cbn [Qnum Qden Qmult Qplus].
  rewrite !Pos.mul_1_r.
  replace ((n * 1 + 2 * Z.pos d) * 32768) with (n * 32768 + 65536 * Z.pos d) by lia.
  rewrite Z.quot_add by nia. apply wrap16_period.
Qed.

(** X7.  Samples are not clamped before the 16-bit store: raising every
    sample of a frame of non-negative samples by 2 gives the same
    payload. *)
Theorem capture_wraps_out_of_range (samples : list Q) :
  Forall (fun x => 0 <= x)%Q samples ->
  encodeFrame (List.map (fun x => x + 2)%Q samples) = encodeFrame samples.
Proof.
  intros H. unfold encodeFrame. do 2 f_equal. rewrite List.map_map.
  induction H as [|x l Hx _ IH]; [reflexivity|].
  cbn [List.map]. now rewrite ToInt16_alias, IH.
Qed.

Lemma capture_wraps_out_of_range_witness :
  encodeFrame (List.map (fun x => x + 2)%Q [1 # 4; 0]%Q) = encodeFrame [1 # 4; 0]%Q.
Proof.
  apply (capture_wraps_out_of_range [1 # 4; 0]%Q).
  repeat constructor; discriminate.
Defined.

Local Open Scope Q_scope.

(** ** After the stop *)

Lemma set_authError_same st : set_authError (authError st) st = st.
Proof. now destruct st. Qed.

Lemma callback_after_stop (ev : Event) (st : State) :
  isStoppingRef st = true -> sourcesRef st = [] ->
  session_callback ev = true ->
  handle ev st = set_authError (authError st || authorization_failure ev) st.
Proof.
  intros Hg Hs Hev. destruct ev; try discriminate; cbn [handle authorization_failure].
  - unfold onaudioprocess. rewrite Hg, orb_false_r. cbn.
    now rewrite set_authError_same.
  - unfold onmessage. rewrite Hg, orb_false_r. cbn.
    now rewrite set_authError_same.
  - unfold onended. rewrite Hs, orb_false_r. cbn.
    rewrite set_authError_same. destruct st; cbn in *; now subst.
  - unfold onerror. destruct (isAuthorizationError e).
    + rewrite orb_true_r. now apply stopSession_latched.
    + rewrite orb_false_r, set_authError_same. now apply stopSession_latched.
  - unfold onclose. rewrite orb_false_r, set_authError_same.
    now apply stopSession_latched.
Qed.

Lemma callbacks_after_stop (evs : list Event) (st : State) :
  isStoppingRef st = true -> sourcesRef st = [] ->
  Forall (fun ev => session_callback ev = true) evs ->
  run evs st
  = set_authError (authError st || existsb authorization_failure evs) st.
Proof.
  intros Hg Hs Hevs. revert st Hg Hs.
  induction Hevs as [|ev evs Hev _ IH]; intros st Hg Hs.
  - cbn. now rewrite orb_false_r, set_authError_same.
  - cbn [run fold_left existsb]. fold (run evs (handle ev st)).
    rewrite (callback_after_stop ev st Hg Hs Hev).
    rewrite IH by (cbn; assumption). cbn. now rewrite orb_assoc.
Qed.

(** X8.  Once [stopSession] has run on a live session, the session's
    callbacks do nothing more, in any number and order: frames are not
    sent, messages are not processed, nothing is scheduled, logged or
    closed again.  Only an authorization failure reported to the error
    callback still raises its flag. *)
Theorem quiescent_after_stop (evs : list Event) (st : State) :
  isStoppingRef st = false ->
  Forall (fun ev => session_callback ev = true) evs ->
  run evs (stopSession st)
  = set_authError (authError st || existsb authorization_failure evs)
      (stopSession st).
Proof.
  intros Hg Hevs. rewrite callbacks_after_stop; try assumption.
  - now rewrite stopSession_authError.
  - apply stopSession_latches.
  - now rewrite stopSession_first.
Qed.

Lemma quiescent_after_stop_witness :
  run [Captured 7 [1 # 2]; Inbound 2 (audioMessage demo_chunk1); Ended 0;
       Closed; Failed demo_denied; Captured 7 []]
    (stopSession demo_playing)
  = set_authError
      (authError demo_playing
       || existsb authorization_failure
            [Captured 7 [1 # 2]; Inbound 2 (audioMessage demo_chunk1); Ended 0;
             Closed; Failed demo_denied; Captured 7 []])
      (stopSession demo_playing).
Proof.
  apply (quiescent_after_stop
           [Captured 7 [1 # 2]; Inbound 2 (audioMessage demo_chunk1); Ended 0;
            Closed; Failed demo_denied; Captured 7 []] demo_playing).
  - reflexivity.
  - repeat constructor.
Defined.

(** ** The active set, over every run *)

Lemma stopped_app l k : stopped (l ++ k) = stopped l ++ stopped k.
Proof. apply flat_map_app. Qed.

Lemma started_app l k : started (l ++ k) = started l ++ started k.
Proof. apply flat_map_app. Qed.

Lemma stopped_stops a : stopped (List.map Stop a) = a.
Proof.
  unfold stopped. induction a as [|x a IH]; [reflexivity|].
  cbn [List.map flat_map app]. now rewrite IH.
Qed.

Lemma started_stops a : started (List.map Stop a) = [].
Proof. induction a as [|x a IH]; [reflexivity|]. exact IH. Qed.

Lemma Start_started l source t d :
  In (Start source t d) l -> In source (started l).
Proof.
  induction l as [|e l IH]; [contradiction|]. intros [->|H].
  - now left.
  - unfold started. cbn [flat_map]. apply in_or_app. right. now apply IH.
Qed.

Lemma Start_not_stops a source t d : ~ In (Start source t d) (List.map Stop a).
Proof. induction a as [|x a IH]; [tauto|]. intros [H|H]; [discriminate|tauto]. Qed.

Lemma inv_other a n c l e :
  other_call e = true ->
  scheduler_inv a n c l -> scheduler_inv a n c (l ++ [e]).
Proof.
  intros He (H1 & H2 & H3 & H4 & H5 & H6 & H7).
  assert (Es : stopped (l ++ [e]) = stopped l).
  { rewrite stopped_app. destruct e; try discriminate; cbn; apply app_nil_r. }
  assert (Et : started (l ++ [e]) = started l).
  { rewrite started_app. destruct e; try discriminate; cbn; apply app_nil_r. }
  unfold scheduler_inv. rewrite Es, Et. repeat split; try assumption.
  intros source t d Hin. apply in_app_or in Hin as [Hin|[E|[]]].
  - now apply H7.
  - subst e. discriminate.
Qed.

Lemma inv_stops a n c c' l :
  scheduler_inv a n c l -> scheduler_inv [] n c' (l ++ List.map Stop a).
Proof.
  intros (H1 & H2 & H3 & H4 & H5 & H6 & H7). unfold scheduler_inv.
  rewrite stopped_app, started_app, stopped_stops, started_stops, app_nil_r.
  repeat split; try assumption; try contradiction.
  - constructor.
  - apply List.NoDup_app; [exact H4 | exact H1 |].
    intros x Hx Ha. exact (H3 x Ha Hx).
  - intros x Hx. apply in_app_or in Hx as [Hx|Hx]; auto.
Qed.

Lemma set_add_fresh n a :
  (forall x, In x a -> (x < n)%nat) -> set_add n a = a ++ [n].
Proof.
  intros H. unfold set_add.
  destruct (existsb (Nat.eqb n) a) eqn:E; [|reflexivity].
  apply existsb_exists in E as (x & Hx & Hn). apply Nat.eqb_eq in Hn. subst x.
  specialize (H n Hx). lia.
Qed.

Lemma inv_schedule a n c c' d l :
  c <= c' -> 0 <= d ->
  scheduler_inv a n c l ->
  scheduler_inv (set_add n a) (S n) (c' + d) (l ++ [Start n c' d]).
Proof.
  intros Hc Hd (H1 & H2 & H3 & H4 & H5 & H6 & H7).
  rewrite (set_add_fresh n a H2). unfold scheduler_inv.
  rewrite stopped_app, started_app. cbn [stopped started flat_map app].
  rewrite !app_nil_r. repeat split.
  - apply List.NoDup_app; [exact H1 | repeat constructor; tauto |].
    intros x Hx [E|[]]. subst x. specialize (H2 n Hx). lia.
  - intros x Hx. apply in_app_or in Hx as [Hx|[E|[]]]; [|lia].
    specialize (H2 x Hx). lia.
  - intros x Hx Hs. apply in_app_or in Hx as [Hx|[E|[]]].
    + exact (H3 x Hx Hs).
    + subst x. specialize (H5 n Hs). lia.
  - exact H4.
  - intros x Hx. specialize (H5 x Hx). lia.
  - rewrite H6. now rewrite seq_S.
  - intros x t e Hin Hx. apply in_app_or in Hin as [Hin|[E|[]]].
    + apply in_app_or in Hx as [Hx|[E|[]]].
      * specialize (H7 x t e Hin Hx). lra.
      * subst x. apply Start_started in Hin. rewrite H6 in Hin.
        apply in_seq in Hin. lia.
    + injection E as <- <- <-. apply Qle_refl.
Qed.

Lemma inv_cursor a n c c' l :
  c <= c' -> scheduler_inv a n c l -> scheduler_inv a n c' l.
Proof.
  intros Hc (H1 & H2 & H3 & H4 & H5 & H6 & H7). repeat split; try assumption.
  intros x t d Hin Hx. specialize (H7 x t d Hin Hx). lra.
Qed.

Lemma inv_delete x a n c l :
  scheduler_inv a n c l -> scheduler_inv (set_delete x a) n c l.
Proof.
  intros (H1 & H2 & H3 & H4 & H5 & H6 & H7).
  assert (Hsub : forall y, In y (set_delete x a) -> In y a).
  { intros y Hy. unfold set_delete in Hy. now apply List.filter_In in Hy. }
  unfold scheduler_inv. repeat split; try assumption.
  - apply List.NoDup_filter, H1.
  - intros y Hy. apply H2, Hsub, Hy.
  - intros y Hy. apply H3, Hsub, Hy.
  - intros y t d Hin Hy. exact (H7 y t d Hin (Hsub y Hy)).
Qed.

Lemma inv_stopSession st : inv st -> inv (stopSession st).
Proof.
  intros H. destruct (isStoppingRef st) eqn:Hg.
  - now rewrite stopSession_latched.
  - rewrite stopSession_first by exact Hg. unfold inv in *.
    cbn [sourcesRef created nextStartTimeRef effects].
    destruct (sessionRef st) as [h|].
    + rewrite app_assoc. apply inv_stops with (c := nextStartTimeRef st).
      now apply inv_other.
    + cbn [app]. now apply inv_stops with (c := nextStartTimeRef st).
Qed.

Lemma inv_catch err st : inv st -> inv (startSession_catch err st).
Proof.
  unfold startSession_catch. now destruct (isAuthorizationError err).
Qed.

Lemma inv_onmessage now m st : inv st -> inv (fst (onmessage now m st)).
Proof.
  intros H. unfold onmessage. destruct (isStoppingRef st); [exact H|].
  set (st1 := match outputTranscription m with Some _ => _ | None => _ end).
  assert (H1 : inv st1) by (unfold st1; now destruct (outputTranscription m)).
  clearbody st1. clear H.
  assert (H2 : forall s, inv s ->
                 inv (fst (if interrupted m then (interrupt s, Fulfilled)
                           else (s, Fulfilled)))).
  { intros s Hs. destruct (interrupted m); [|exact Hs]. cbn [fst].
    rewrite interrupt_spec. unfold inv in *.
    cbn [sourcesRef created nextStartTimeRef effects].
    now apply inv_stops with (c := nextStartTimeRef s). }
  destruct (inlineData m) as [| |[|ch s]];
    [exact H1 | now apply H2 | now apply H2 |].
  unfold schedule. destruct (decodeToAudioBuffer (ch :: s)) as [b|].
  - apply H2. unfold inv in *.
    cbn [sourcesRef created nextStartTimeRef effects set_sourcesRef
         set_nextStartTimeRef emit set_created].
    apply inv_schedule with (c := nextStartTimeRef st1);
      [apply Q.le_max_l | apply duration_nonneg | exact H1].
  - cbn [fst]. unfold inv in *.
    cbn [sourcesRef created nextStartTimeRef effects set_nextStartTimeRef].
    apply inv_cursor with (c := nextStartTimeRef st1);
      [apply Q.le_max_l | exact H1].
Qed.

Lemma inv_handle ev st : inv st -> inv (handle ev st).
Proof.
  intros H. destruct ev; cbn [handle].
  - unfold onClick. destruct (isConnecting st); [exact H|].
    destruct (isActive st); [now apply inv_stopSession|].
    unfold startSession. destruct ai as [u|err].
    + unfold inv in *. cbn. now apply inv_other.
    + now apply inv_catch.
  - destruct stream as [u|err]; [|now apply inv_catch].
    unfold inv in *. cbn. now apply inv_other.
  - destruct session as [h|err]; [exact H|now apply inv_catch].
  - exact H.
  - unfold onaudioprocess. destruct (isStoppingRef st); [exact H|].
    unfold inv in *. cbn. now apply inv_other.
  - now apply inv_onmessage.
  - unfold onended, inv in *. cbn. now apply inv_delete.
  - unfold onerror. apply inv_stopSession.
    now destruct (isAuthorizationError e).
  - now apply inv_stopSession.
Qed.

Lemma inv_run evs st : inv st -> inv (run evs st).
Proof.
  revert st. induction evs as [|ev evs IH]; intros st H; [exact H|].
  cbn [run fold_left]. apply IH, inv_handle, H.
Qed.

Lemma inv_initial : inv initial.
Proof.
  unfold inv, scheduler_inv. cbn. repeat split; try constructor; try tauto.
Qed.

(** X9.  In every state the component can reach, the active set holds no
    source twice, every source in it has been started and has not been
    force-stopped, the sources started are numbered in creation order,
    and no source is force-stopped twice. *)
Theorem active_set_sound (evs : list Event) :
  let st := run evs initial in
  List.NoDup (sourcesRef st)
  /\ (forall source,
        In source (sourcesRef st) ->
        In source (started (effects st)) /\ ~ In source (stopped (effects st)))
  /\ started (effects st) = seq 0 (created st)
  /\ List.NoDup (stopped (effects st)).
Proof.
  intros st. destruct (inv_run evs initial inv_initial)
    as (H1 & H2 & H3 & H4 & H5 & H6 & H7). fold st in H1, H2, H3, H4, H5, H6, H7.
  repeat split; try assumption.
  - rewrite H6. apply in_seq. specialize (H2 source H). lia.
  - now apply H3.
Qed.

(** X10.  In every state the component can reach, no source of the active
    set ends after the cursor; so a chunk scheduled next starts when
    every source still active has ended, whatever interruptions, stops
    and restarts came before. *)
Theorem no_overlap_with_active
    (evs : list Event) (source : nat) (t d : Q) (now : Q) (p : list ascii) :
  let st := run evs initial in
  In (Start source t d) (effects st) ->
  In source (sourcesRef st) ->
  isStoppingRef st = false ->
  playable p ->
  t + d <= nextStartTimeRef st
  /\ exists start,
       scheduled (effects (fst (onmessage now (audioMessage p) st)))
       = scheduled (effects st) ++ [(start, payload_duration p)]
       /\ t + d <= start.
Proof.
  intros st Hin Ha Hg Hp.
  destruct (inv_run evs initial inv_initial) as (_ & _ & _ & _ & _ & _ & H7).
  fold st in H7. specialize (H7 source t d Hin Ha). split; [exact H7|].
  rewrite onmessage_audio by assumption. cbn [fst effects].
  eexists. split.
  - unfold scheduled. rewrite flat_map_app. cbn [flat_map app]. reflexivity.
  - pose proof (Q.le_max_l (nextStartTimeRef st) now). lra.
Qed.

Lemma no_overlap_with_active_witness :
  let st := run [Click demo_ok; StreamSettled demo_ok;
                 SessionSettled (Resolved 7%nat); Opened;
                 Inbound 0 (audioMessage demo_chunk1);
                 Inbound (1 # 24000) (audioMessage demo_chunk1)] initial in
  (1 # 24000) + (1 # 24000) <= nextStartTimeRef st
  /\ exists start,
       scheduled (effects (fst (onmessage 0 (audioMessage demo_chunk3) st)))
       = scheduled (effects st) ++ [(start, payload_duration demo_chunk3)]
       /\ (1 # 24000) + (1 # 24000) <= start.
Proof.
  apply (no_overlap_with_active
           [Click demo_ok; StreamSettled demo_ok; SessionSettled (Resolved 7%nat);
            Opened; Inbound 0 (audioMessage demo_chunk1);
            Inbound (1 # 24000) (audioMessage demo_chunk1)]
           1 (1 # 24000) (1 # 24000) 0 demo_chunk3).
  - vm_compute. tauto.
  - vm_compute. tauto.
  - reflexivity.
  - split; [discriminate | eexists; vm_compute; reflexivity].
Defined.

(** ** The transcript *)

Lemma catch_log err st :
  transcription (startSession_catch err st) = transcription st.
Proof. unfold startSession_catch. now destruct (isAuthorizationError err). Qed.

Lemma onmessage_log now m st :
  transcription (fst (onmessage now m st)) = transcription st
  \/ exists text,
       transcription (fst (onmessage now m st))
       = transcription st ++ [("AI: " ++ text)%string].
Proof.
  unfold onmessage. destruct (isStoppingRef st); [now left|].
  set (st1 := match outputTranscription m with Some _ => _ | None => _ end).
  assert (E : transcription
                (fst (let r := match inlineData m with
                               | NoParts => (st1, Thrown)
                               | Data (c :: s) => schedule now (c :: s) st1
                               | _ => (st1, Fulfilled)
                               end in
                      match r with
                      | (st, Thrown) => (st, Thrown)
                      | (st, Fulfilled) =>
                          if interrupted m then (interrupt st, Fulfilled)
                          else (st, Fulfilled)
                      end))
              = transcription st1).
  { cbv zeta. destruct (inlineData m) as [| |[|c s]].
    - reflexivity.
    - destruct (interrupted m); [now rewrite interrupt_spec | reflexivity].
    - destruct (interrupted m); [now rewrite interrupt_spec | reflexivity].
    - unfold schedule. destruct (decodeToAudioBuffer (c :: s)); [|reflexivity].
      destruct (interrupted m); [now rewrite interrupt_spec | reflexivity]. }
  cbv zeta in E. rewrite E. unfold st1.
  destruct (outputTranscription m) as [text|]; [right; now exists text | now left].
Qed.

(** What one handler run adds to the log. *)
Lemma handle_log ev st :
  transcription (handle ev st) = transcription st
  \/ (exists line,
        agent_or_opening line
        /\ transcription (handle ev st) = transcription st ++ [line])
  \/ (last (transcription st) <> Some sessionEnded
      /\ transcription (handle ev st) = transcription st ++ [sessionEnded]).
Proof.
  assert (Hstop : forall s,
    transcription (stopSession s) = transcription s
    \/ (last (transcription s) <> Some sessionEnded
        /\ transcription (stopSession s) = transcription s ++ [sessionEnded])).
  { intros s. destruct (isStoppingRef s) eqn:Hg.
    - rewrite stopSession_latched by exact Hg. now left.
    - rewrite stopSession_first by exact Hg. cbn [transcription].
      destruct (last (transcription s)) as [line|] eqn:El.
      + destruct (String.eqb_spec line sessionEnded) as [->|Hn]; [now left|].
        right. split; [congruence | reflexivity].
      + right. split; [discriminate | reflexivity]. }
  destruct ev; cbn [handle].
  - unfold onClick. destruct (isConnecting st); [now left|].
    destruct (isActive st).
    + destruct (Hstop st) as [H|H]; auto.
    + left. unfold startSession. destruct ai; [reflexivity|].
      cbv beta iota zeta. now rewrite catch_log.
  - left. destruct stream; [reflexivity | apply catch_log].
  - left. destruct session; [reflexivity | apply catch_log].
  - right; left. eexists. split; [|reflexivity]. now left.
  - left. unfold onaudioprocess. now destruct (isStoppingRef st).
  - destruct (onmessage_log currentTime m st) as [H|[text H]]; [now left|].
    right; left. eexists. split; [|exact H]. right. now exists text.
  - now left.
  - unfold onerror.
    destruct (Hstop (if isAuthorizationError e then set_authError true st else st))
      as [H|H]; destruct (isAuthorizationError e); auto.
  - unfold onclose. destruct (Hstop st) as [H|H]; auto.
Qed.

Lemma no_double_end_snoc log line :
  no_double_end log ->
  line <> sessionEnded \/ last log <> Some sessionEnded ->
  no_double_end (log ++ [line]).
Proof.
  intros Hlog Hline pre post E.
  induction post as [|x post' _] using rev_ind.
  - rewrite app_nil_r in E.
    change (pre ++ [sessionEnded; sessionEnded])
      with (pre ++ [sessionEnded] ++ [sessionEnded]) in E.
    rewrite app_assoc in E. apply app_inj_tail in E as [E1 E2].
    destruct Hline as [H|H]; [congruence|].
    apply H. rewrite E1. apply last_snoc.
  - apply (Hlog pre post').
    rewrite !app_assoc in E. apply app_inj_tail in E as [E _].
    now rewrite <- !app_assoc in E.
Qed.

Lemma run_log_grows evs st :
  exists more, transcription (run evs st) = transcription st ++ more.
Proof.
  revert st. induction evs as [|ev evs IH]; intros st.
  - exists []. cbn. now rewrite app_nil_r.
  - cbn [run fold_left]. destruct (IH (handle ev st)) as [more E].
    fold (run evs (handle ev st)). rewrite E.
    destruct (handle_log ev st) as [H|[(line & _ & H)|[_ H]]]; rewrite H.
    + eauto.
    + exists ([line] ++ more). now rewrite <- app_assoc.
    + exists ([sessionEnded] ++ more). now rewrite <- app_assoc.
Qed.

Lemma run_no_double_end evs st :
  no_double_end (transcription st) -> no_double_end (transcription (run evs st)).
Proof.
  revert st. induction evs as [|ev evs IH]; intros st H; [exact H|].
  cbn [run fold_left]. apply IH.
  destruct (handle_log ev st) as [E|[(line & Hl & E)|[Hl E]]]; rewrite E.
  - exact H.
  - apply no_double_end_snoc; [exact H|]. left.
    destruct Hl as [->|[text ->]]; discriminate.
  - apply no_double_end_snoc; auto.
Qed.

(** X11.  The transcript only grows: whatever happens, the log a state
    had is the beginning of every later log.  And starting from the empty
    log, "[Session Ended]" never appears twice in a row. *)
Theorem transcript_grows (evs : list Event) (st : State) :
  (exists more, transcription (run evs st) = transcription st ++ more)
  /\ no_double_end (transcription (run evs initial)).
Proof.
  split; [apply run_log_grows|].
  apply run_no_double_end. intros pre post E.
  destruct pre; discriminate.
Qed.

Lemma run_lines evs st line :
  In line (transcription (run evs st)) ->
  In line (transcription st) \/ agent_or_opening line \/ line = sessionEnded.
Proof.
  revert st. induction evs as [|ev evs IH]; intros st H; [now left|].
  cbn [run fold_left] in H. apply IH in H as [H|H]; [|now right].
  destruct (handle_log ev st) as [E|[(l & Hl & E)|[_ E]]]; rewrite E in H.
  - now left.
  - apply in_app_or in H as [H|[<-|[]]]; auto.
  - apply in_app_or in H as [H|[<-|[]]]; auto.
Qed.

(** X20.  The log of a reachable state holds three kinds of lines only:
    agent lines, which are "AI: " followed by the transcribed text and
    are the ones rendered as the agent's, and the two markers, which are
    not. *)
Theorem transcript_lines (evs : list Event) (line : string) :
  In line (transcription (run evs initial)) ->
  (agentLine line = true /\ exists text, line = ("AI: " ++ text)%string)
  \/ (agentLine line = false
      /\ (line = "[Connection Established]"%string \/ line = sessionEnded)).
Proof.
  intros H. apply run_lines in H as [[]|[[->|[text ->]]| ->]].
  - right. split; [reflexivity | now left].
  - left. split; [reflexivity | now exists text].
  - right. split; [reflexivity | now right].
Qed.

Lemma transcript_lines_witness :
  (agentLine "AI: hello" = true
   /\ exists text, "AI: hello"%string = ("AI: " ++ text)%string)
  \/ (agentLine "AI: hello" = false
      /\ ("AI: hello"%string = "[Connection Established]"%string
          \/ "AI: hello"%string = sessionEnded)).
Proof.
  apply (transcript_lines
           [Click demo_ok; StreamSettled demo_ok; SessionSettled (Resolved 7%nat);
            Opened; Inbound 0 (mkMessage (Some "hello"%string) NoData false)]
           "AI: hello"%string).
  vm_compute. tauto.
Defined.

(** ** Across sessions *)

(** X12.  Stopping a session and starting the next one keep the cursor,
    so the first chunk of the new session starts at the later of the old
    cursor and the device time. *)
Theorem cursor_survives_restart
    (st : State) (h : nat) (t : Q) (p : list ascii) :
  playable p ->
  let st' := onopen (startSession_session (Resolved h)
                       (startSession_stream (Resolved tt)
                          (startSession (Resolved tt) (stopSession st)))) in
  nextStartTimeRef (stopSession st) = nextStartTimeRef st
  /\ nextStartTimeRef st' = nextStartTimeRef st
  /\ scheduled (effects (fst (onmessage t (audioMessage p) st')))
     = scheduled (effects st') ++ [(Qmax (nextStartTimeRef st) t, payload_duration p)].
Proof.
  intros Hp st'.
  assert (E : nextStartTimeRef (stopSession st) = nextStartTimeRef st).
  { destruct (isStoppingRef st) eqn:Hg.
    - now rewrite stopSession_latched.
    - now rewrite stopSession_first. }
  assert (E' : nextStartTimeRef st' = nextStartTimeRef st) by exact E.
  repeat split; try assumption.
  rewrite onmessage_audio by (try reflexivity; assumption).
  cbn [fst effects]. rewrite E'.
  unfold scheduled. rewrite flat_map_app. cbn [flat_map app]. reflexivity.
Qed.

Lemma cursor_survives_restart_witness :
  let st' := onopen (startSession_session (Resolved 8%nat)
                       (startSession_stream (Resolved tt)
                          (startSession (Resolved tt) (stopSession demo_playing)))) in
  nextStartTimeRef (stopSession demo_playing) = nextStartTimeRef demo_playing
  /\ nextStartTimeRef st' = nextStartTimeRef demo_playing
  /\ scheduled (effects (fst (onmessage 0 (audioMessage demo_chunk1) st')))
     = scheduled (effects st')
         ++ [(Qmax (nextStartTimeRef demo_playing) 0, payload_duration demo_chunk1)].
Proof.
  apply (cursor_survives_restart demo_playing 8 0 demo_chunk1).
  split; [discriminate | eexists; vm_compute; reflexivity].
Defined.

(** X13.  From IDLE the button leads to CONNECTING.  A start that fails,
    at [getAI], at the microphone or at the connection, is back in IDLE
    with the stop guard clear; a refused microphone opens no connection.
    A start that succeeds is ACTIVE once the connection has opened,
    whether [onopen] runs before or after the session handle arrives, and
    the button then leads back to IDLE. *)
Theorem start_stop_cycle (st : State) (e : Error) (h : nat) :
  lifecycle st = IDLE ->
  let connecting := onClick (Resolved tt) st in
  let connected := startSession_stream (Resolved tt) connecting in
  let active := onopen (startSession_session (Resolved h) connected) in
  lifecycle connecting = CONNECTING
  /\ (lifecycle (onClick (Rejected e) st) = IDLE
      /\ isStoppingRef (onClick (Rejected e) st) = false)
  /\ (lifecycle (startSession_stream (Rejected e) connecting) = IDLE
      /\ isStoppingRef (startSession_stream (Rejected e) connecting) = false
      /\ connections (effects (startSession_stream (Rejected e) connecting))
         = connections (effects st))
  /\ lifecycle connected = CONNECTING
  /\ (lifecycle (startSession_session (Rejected e) connected) = IDLE
      /\ isStoppingRef (startSession_session (Rejected e) connected) = false)
  /\ lifecycle active = ACTIVE
  /\ sessionRef active = Some h
  /\ startSession_session (Resolved h) (onopen connected) = active
  /\ lifecycle (onClick (Resolved tt) active) = IDLE
  /\ sessionRef (onClick (Resolved tt) active) = None.
Proof.
  intros H connecting connected active.
  assert (Hf : isConnecting st = false /\ isActive st = false).
  { unfold lifecycle in H. destruct (isConnecting st), (isActive st);
      try destruct (isStoppingRef st); try discriminate; auto. }
  destruct Hf as [Hc Ha].
  assert (Hstart : forall ai, onClick ai st = startSession ai st).
  { intros ai. unfold onClick. now rewrite Hc, Ha. }
  subst connecting connected active. rewrite !Hstart.
  set (active := onopen _).
  assert (Hend : lifecycle (onClick (Resolved tt) active) = IDLE
                 /\ sessionRef (onClick (Resolved tt) active) = None).
  { assert (E : onClick (Resolved tt) active = stopSession active) by reflexivity.
    rewrite E, stopSession_first by reflexivity. split; reflexivity. }
  destruct Hend as [He1 He2]. subst active.
  destruct st as [a tr c au s n src g k m l]. cbn in Hc, Ha. subst a c.
  assert (Hconn : connections (l ++ [GetUserMedia]) = connections l).
  { unfold connections. rewrite List.filter_app. cbn. now rewrite app_nil_r. }
  unfold startSession, startSession_stream, startSession_session,
    startSession_catch in *.
  repeat split; try assumption; try reflexivity;
    destruct (isAuthorizationError e); try reflexivity; exact Hconn.
Qed.

Lemma start_stop_cycle_witness :
  let connecting := onClick (Resolved tt) initial in
  let connected := startSession_stream (Resolved tt) connecting in
  let active := onopen (startSession_session (Resolved 7%nat) connected) in
  lifecycle connecting = CONNECTING
  /\ (lifecycle (onClick (Rejected demo_denied) initial) = IDLE
      /\ isStoppingRef (onClick (Rejected demo_denied) initial) = false)
  /\ (lifecycle (startSession_stream (Rejected demo_denied) connecting) = IDLE
      /\ isStoppingRef (startSession_stream (Rejected demo_denied) connecting) = false
      /\ connections (effects (startSession_stream (Rejected demo_denied) connecting))
         = connections (effects initial))
  /\ lifecycle connected = CONNECTING
  /\ (lifecycle (startSession_session (Rejected demo_denied) connected) = IDLE
      /\ isStoppingRef (startSession_session (Rejected demo_denied) connected) = false)
  /\ lifecycle active = ACTIVE
  /\ sessionRef active = Some 7%nat
  /\ startSession_session (Resolved 7%nat) (onopen connected) = active
  /\ lifecycle (onClick (Resolved tt) active) = IDLE
  /\ sessionRef (onClick (Resolved tt) active) = None.
Proof. apply (start_stop_cycle initial demo_denied 7). reflexivity. Defined.

(** X14.  A stop that comes while the connection is still being opened
    closes nothing, and does not cancel the opening: the session handle
    that arrives afterwards is stored, and no later stop of that session
    closes it. *)
Theorem late_session_not_closed (st : State) (h : nat) (N : nat) :
  isStoppingRef st = false ->
  sessionRef st = None ->
  let st' := startSession_session (Resolved h) (stopSession st) in
  (forall k, ~ In (Close k) (skipn (length (effects st)) (effects (stopSession st))))
  /\ sessionRef st' = Some h
  /\ Nat.iter N stopSession st' = st'.
Proof.
  intros Hg Hs st'. repeat split.
  - intros k. rewrite stopSession_first by exact Hg. cbn [effects].
    rewrite Hs. cbn [app]. rewrite skipn_app, skipn_all, Nat.sub_diag.
    cbn [skipn app]. intros Hin. apply in_map_iff in Hin as (x & Hx & _).
    discriminate.
  - assert (Hl : isStoppingRef st' = true) by apply stopSession_latches.
    induction N as [|N IH]; [reflexivity|].
    change (Nat.iter (S N) stopSession st')
      with (stopSession (Nat.iter N stopSession st')).
    rewrite IH. now apply stopSession_latched.
Qed.

Lemma late_session_not_closed_witness :
  let st' := startSession_session (Resolved 9%nat) (stopSession demo_connecting) in
  (forall k, ~ In (Close k) (skipn (length (effects demo_connecting))
                               (effects (stopSession demo_connecting))))
  /\ sessionRef st' = Some 9%nat
  /\ Nat.iter 2 stopSession st' = st'.
Proof.
  apply (late_session_not_closed demo_connecting 9 2); reflexivity.
Defined.

(** ** Outbound frames *)

Lemma sends_app l k : sends (l ++ k) = sends l ++ sends k.
Proof. apply flat_map_app. Qed.

(** X19.  While the stop guard is clear, the frames captured for a
    session are sent on it one by one, encoded, in the order of capture,
    and the guard stays clear. *)
Theorem frames_sent_in_order
    (session : nat) (captured : list (list Q)) (st : State) :
  isStoppingRef st = false ->
  let st' := run (List.map (Captured session) captured) st in
  sends (effects st')
  = sends (effects st)
      ++ List.map (fun inputData => (session, encodeFrame inputData)) captured
  /\ isStoppingRef st' = false.
Proof.
  intros Hg. cbv zeta. revert st Hg.
  induction captured as [|f fs IH]; intros st Hg.
  - cbn. now rewrite app_nil_r.
  - cbn [List.map run fold_left handle].
    fold (run (List.map (Captured session) fs) (onaudioprocess session f st)).
    assert (E : onaudioprocess session f st
                = emit (SendRealtimeInput session (encodeFrame f)) st).
    { unfold onaudioprocess. now rewrite Hg. }
    rewrite E. destruct (IH (emit (SendRealtimeInput session (encodeFrame f)) st) Hg)
      as [H1 H2].
    split; [|exact H2]. rewrite H1. cbn [effects emit].
    rewrite sends_app. cbn. now rewrite <- app_assoc.
Qed.

Lemma frames_sent_in_order_witness :
  let st' := run (List.map (Captured 7) [[1 # 2]; [0; -1]]) demo_active in
  sends (effects st')
  = sends (effects demo_active)
      ++ List.map (fun inputData => (7%nat, encodeFrame inputData)) [[1 # 2]; [0; -1]]
  /\ isStoppingRef st' = false.
Proof.
  apply (frames_sent_in_order 7 [[1 # 2]; [0; -1]] demo_active). reflexivity.
Defined.

Local Open Scope Z_scope.

(** ** The voice preview *)

(** X15.  The voice preview releases its button on every path.  A
    response whose audio decodes starts exactly one buffer, of the
    decoded duration, and leaves the flag as it is; the buffer's
    ['ended'] event then clears it.  A response that fails, carries no
    audio, or carries audio that does not decode clears the flag and
    starts nothing: the decoding error is caught here.  While a preview
    is in progress the button does nothing; otherwise it sets the flag
    and makes the request, or clears the flag when [getAI] throws. *)
Theorem preview_released
    (p : list ascii) (b : AudioBuffer) (e : Error) (ai : Settled unit)
    (st : Preview) :
  decodeToAudioBuffer p = Some b ->
  previewVoice_response (Resolved (Some p)) st
  = mkPreview (isPreviewing st) (previews st ++ [duration b])
  /\ preview_onended (previewVoice_response (Resolved (Some p)) st)
     = mkPreview false (previews st ++ [duration b])
  /\ (forall q, decodeToAudioBuffer q = None ->
                previewVoice_response (Resolved (Some q)) st
                = mkPreview false (previews st))
  /\ previewVoice_response (Resolved None) st = mkPreview false (previews st)
  /\ previewVoice_response (Rejected e) st = mkPreview false (previews st)
  /\ (isPreviewing st = true -> previewVoice ai st = (st, false))
  /\ (isPreviewing st = false ->
      previewVoice (Resolved tt) st = (mkPreview true (previews st), true)
      /\ previewVoice (Rejected e) st = (mkPreview false (previews st), false)).
Proof.
  intros Hb.
  assert (E : previewVoice_response (Resolved (Some p)) st
              = mkPreview (isPreviewing st) (previews st ++ [duration b])).
  { destruct p as [|c s]; [discriminate Hb|].
    unfold previewVoice_response. now rewrite Hb. }
  split; [exact E|]. split; [now rewrite E|]. split.
  { intros q Hq. unfold previewVoice_response.
    destruct q as [|c s]; [reflexivity | now rewrite Hq]. }
  split; [reflexivity|]. split; [reflexivity|].
  unfold previewVoice. split; intros ->; [reflexivity | split; reflexivity].
Qed.

Lemma preview_released_witness :
  previewVoice_response (Resolved (Some demo_chunk3)) (mkPreview true [])
  = mkPreview true ([] ++ [3 # 24000]%Q)
  /\ preview_onended (previewVoice_response (Resolved (Some demo_chunk3)) (mkPreview true []))
     = mkPreview false ([] ++ [3 # 24000]%Q)
  /\ (forall q, decodeToAudioBuffer q = None ->
                previewVoice_response (Resolved (Some q)) (mkPreview true [])
                = mkPreview false [])
  /\ previewVoice_response (Resolved None) (mkPreview true []) = mkPreview false []
  /\ previewVoice_response (Rejected demo_denied) (mkPreview true [])
     = mkPreview false []
  /\ (true = true -> previewVoice demo_ok (mkPreview true []) = (mkPreview true [], false))
  /\ (true = false ->
      previewVoice (Resolved tt) (mkPreview true []) = (mkPreview true [], true)
      /\ previewVoice (Rejected demo_denied) (mkPreview true [])
         = (mkPreview false [], false)).
Proof.
  apply (preview_released demo_chunk3
           (mkAudioBuffer 1 3 24000 [[0 # 32768; 0 # 32768; 0 # 32768]]%Q)
           demo_denied demo_ok (mkPreview true [])).
  reflexivity.
Defined.

(** ** Prompts *)

Lemma trimStart_head s :
  trimStart s = [] \/ exists c r, trimStart s = c :: r /\ is_space c = false.
Proof.
  induction s as [|c r IH]; [now left|]. cbn [trimStart].
  destruct (is_space c) eqn:E; [exact IH|]. right. now exists c, r.
Qed.

Lemma trimStart_fixed c r : is_space c = false -> trimStart (c :: r) = c :: r.
Proof. intros H. cbn [trimStart]. now rewrite H. Qed.

Lemma trimStart_suffix s : exists pre, s = pre ++ trimStart s.
Proof.
  induction s as [|c r [pre IH]]; [now exists []|]. cbn [trimStart].
  destruct (is_space c).
  - exists (c :: pre). cbn. now f_equal.
  - now exists [].
Qed.

Lemma trim_chars_fixed s : trim_chars (trim_chars s) = trim_chars s.
Proof.
  unfold trim_chars at 2 3. set (x := trimStart s).
  set (z := trimStart (rev x)).
  assert (Hz : trimStart z = z).
  { unfold z. destruct (trimStart_head (rev x)) as [->|(c & r & -> & Hc)];
      [reflexivity | now apply trimStart_fixed]. }
  assert (Hy : trimStart (rev z) = rev z).
  { destruct (trimStart_suffix (rev x)) as [pre E]. fold z in E.
    apply (f_equal (@rev ascii)) in E. rewrite rev_involutive, rev_app_distr in E.
    destruct (rev z) as [|c r] eqn:Ez; [reflexivity|].
    apply trimStart_fixed.
    destruct (trimStart_head s) as [H|(c' & r' & H & Hc)]; fold x in H;
      rewrite H in E; cbn in E; [discriminate|].
    now injection E as -> _. }
  unfold trim_chars. now rewrite Hy, rev_involutive, Hz.
Qed.

Lemma trim_fixed s : trim (trim s) = trim s.
Proof.
  unfold trim. now rewrite list_ascii_of_string_of_list_ascii, trim_chars_fixed.
Qed.

Lemma length_zero s : (String.length s =? 0)%nat = true <-> s = EmptyString.
Proof. destruct s; cbn; split; congruence. Qed.

Lemma improvePrompt_cases ai response text :
  improvePrompt ai response text = text
  \/ exists t,
       response = Resolved (Some t)
       /\ improvePrompt ai response text = trim t
       /\ trim t <> EmptyString
       /\ (2 <= String.length (trim text))%nat.
Proof.
  unfold improvePrompt.
  destruct (String.length text =? 0)%nat; [now left|]. cbn [orb].
  destruct (Nat.ltb_spec (String.length (trim text)) 2) as [|Hlen]; [now left|].
  destruct ai as [u|e]; [|now left].
  destruct response as [[t|]|e]; [|now left..].
  destruct (String.length (trim t) =? 0)%nat eqn:E; [now left|].
  right. exists t. repeat split; try assumption.
  intros H. rewrite H in E. discriminate.
Qed.

Lemma improvePrompt_not_blank ai response text :
  trim text <> EmptyString ->
  trim (improvePrompt ai response text) <> EmptyString.
Proof.
  intros H. destruct (improvePrompt_cases ai response text)
    as [->|(t & _ & -> & Ht & _)]; [exact H|]. now rewrite trim_fixed.
Qed.

(** X16.  [improvePrompt] returns either its input, unchanged, or the
    trimmed text of the response, and this only when that text is not
    empty and the input has at least two characters once trimmed.  So a
    prompt that is not blank never comes back blank. *)
Theorem improvePrompt_result
    (ai : Settled unit) (response : Settled (option string)) (text : string) :
  let out := improvePrompt ai response text in
  (out = text
   \/ exists t,
        response = Resolved (Some t) /\ out = trim t
        /\ out <> EmptyString /\ (2 <= String.length (trim text))%nat)
  /\ (trim out = EmptyString -> trim text = EmptyString).
Proof.
  intros out. subst out. split.
  - destruct (improvePrompt_cases ai response text)
      as [H|(t & Hr & E & Ht & Hl)]; [now left|].
    right. exists t. rewrite E. auto.
  - intros H. destruct (string_dec (trim text) EmptyString) as [E|E]; [exact E|].
    now apply (improvePrompt_not_blank ai response) in E.
Qed.

(** X17.  The improve button does nothing on a blank prompt or while an
    improvement is in progress.  Otherwise it raises the flag and passes
    the prompt to [improvePrompt]; when that returns, the prompt is what
    it returned, the flag is cleared and the prompt is not blank. *)
Theorem handleImprove_keeps_prompt
    (ai : Settled unit) (response : Settled (option string)) (st later : PromptBox) :
  (trim (prompt st) = EmptyString \/ isImproving st = true ->
   handleImprove st = (st, None))
  /\ (trim (prompt st) <> EmptyString -> isImproving st = false ->
      handleImprove st = (mkPromptBox (prompt st) true, Some (prompt st))
      /\ handleImprove_resume (improvePrompt ai response (prompt st)) later
         = mkPromptBox (improvePrompt ai response (prompt st)) false
      /\ trim (prompt (handleImprove_resume
                         (improvePrompt ai response (prompt st)) later))
         <> EmptyString).
Proof.
  unfold handleImprove. split.
  - intros [H|H].
    + now rewrite H.
    + rewrite H. now rewrite orb_true_r.
  - intros Hp Hi. rewrite Hi.
    destruct (String.length (trim (prompt st)) =? 0)%nat eqn:E.
    + apply length_zero in E. contradiction.
    + cbn [orb]. repeat split. cbn [handleImprove_resume prompt].
      now apply improvePrompt_not_blank.
Qed.

(** ** Files *)

Lemma split_on_plain s :
  Forall (fun c => c <> comma) s -> split_on comma s = [s].
Proof.
  induction 1 as [|c r Hc _ IH]; [reflexivity|]. cbn [split_on].
  destruct (Ascii.eqb_spec c comma); [contradiction|]. now rewrite IH.
Qed.

Lemma split_on_header header rest :
  Forall (fun c => c <> comma) header ->
  split_on comma (header ++ comma :: rest) = header :: split_on comma rest.
Proof.
  induction 1 as [|c r Hc _ IH]; cbn [app split_on].
  - now rewrite Ascii.eqb_refl.
  - destruct (Ascii.eqb_spec c comma); [contradiction|]. now rewrite IH.
Qed.

Lemma btoa_no_comma bs : Forall (fun c => c <> comma) (btoa bs).
Proof.
  eapply List.Forall_impl; [|apply btoa_plain]. cbv beta. tauto.
Qed.

(** X18.  Of a data URL, that is a header without comma, a comma and the
    base64 text of the file's bytes, [fileToBase64] returns exactly the
    base64 text, which [decode] turns back into the bytes.  Of a text
    without comma it returns [undefined]. *)
Theorem fileToBase64_payload (header : list ascii) (bytes : list Z) :
  Forall (fun c => c <> comma) header ->
  Forall is_byte bytes ->
  fileToBase64 (Resolved (header ++ comma :: encode bytes))
  = Resolved (Some (encode bytes))
  /\ decode (encode bytes) = Some bytes
  /\ fileToBase64 (Resolved header) = Resolved None.
Proof.
  intros Hh Hb. unfold fileToBase64, encode. repeat split.
  - rewrite split_on_header by exact Hh.
    now rewrite split_on_plain by apply btoa_no_comma.
  - now apply atob_btoa.
  - now rewrite split_on_plain.
Qed.

Lemma fileToBase64_payload_witness :
  fileToBase64
    (Resolved (list_ascii_of_string "data:image/png;base64" ++ comma :: encode [137; 80; 78; 71]))
  = Resolved (Some (encode [137; 80; 78; 71]))
  /\ decode (encode [137; 80; 78; 71]) = Some [137; 80; 78; 71]
  /\ fileToBase64 (Resolved (list_ascii_of_string "data:image/png;base64"))
     = Resolved None.
Proof.
  apply (fileToBase64_payload (list_ascii_of_string "data:image/png;base64")
           [137; 80; 78; 71]).
  - repeat (apply List.Forall_cons; [discriminate|]). apply List.Forall_nil.
  - repeat (apply List.Forall_cons; [unfold is_byte; lia|]). apply List.Forall_nil.
Defined.
